(** * BitSet.h: a fixed-universe set stored as a bit vector

    A shallow embedding of the class template [BitSet<TElement, TToken>]
    of [src/BitSet.h] and the properties of its operations.

    Conventions of the embedding:
    - a C++ unsigned integer of [w] bits is a [Z] in [[0, 2^w)]; every
      operation that can leave that range has its wrap-around written out;
    - [unsigned] and [int] are 32 bits wide, [unsigned long] and
      [std::size_t] 64 bits (LP64);
    - the storage block behind [TokenArray] is a [list Z] of words, a null
      pointer is [None]; reading or writing outside the block is an error;
    - the option monad carries the two ways a call can fail to return: a
      failed [assert] (checked builds only) and an access outside the
      block.  *)

From Stdlib Require Import ZArith Lia.
From stdpp Require Import base option list list_numbers sorting.

Local Open Scope Z_scope.

(** ** Machine integers *)

(** The fixed-width unsigned types the two template parameters range over. *)
Inductive uint_t : Set := uint8_t | uint16_t | uint32_t | uint64_t.

Definition sizeof (t : uint_t) : Z :=
  match t with uint8_t => 1 | uint16_t => 2 | uint32_t => 4 | uint64_t => 8 end.

Definition bits (t : uint_t) : Z := 8 * sizeof t.

(** Conversion to an unsigned type of [n] bits. *)
Definition wrap (n x : Z) : Z := x mod 2 ^ n.

(** [unsigned] / [unsigned int] arithmetic. *)
Definition wrap_unsigned (x : Z) : Z := wrap 32 x.

(** [unsigned long] / [std::size_t] arithmetic. *)
Definition wrap_ulong (x : Z) : Z := wrap 64 x.

(** Conversion to [int] (two's complement). *)
Definition wrap_int (x : Z) : Z := (x + 2 ^ 31) mod 2 ^ 32 - 2 ^ 31.

(** Conversion to the unsigned type [t]. *)
Definition wrap_t (t : uint_t) (x : Z) : Z := wrap (bits t) x.

(** [p[i]] on a block: an error outside it. *)
Definition index (arr : list Z) (i : Z) : option Z :=
  if bool_decide (0 ≤ i) then arr !! Z.to_nat i else None.

(** [p[i] = v] on a block: an error outside it. *)
Definition store (arr : list Z) (i : Z) (v : Z) : option (list Z) :=
  if bool_decide (0 ≤ i < Z.of_nat (length arr)) then Some (<[Z.to_nat i := v]> arr) else None.

(** ** Loops *)

(** [for (unsigned i = i0; i < i0 + n; i++) body]: the counter cannot wrap
    before it reaches a bound that is itself an [unsigned]. *)
Fixpoint for_loop {A : Type} (body : Z → A → option A) (i : Z) (n : nat) (a : A) : option A :=
  match n with
  | O => Some a
  | S n' => a' ← body i a; for_loop body (i + 1) n' a'
  end.

(** The same loop with a body that may [return]: [inl] goes on with the next
    iteration, [inr] leaves the function. *)
Fixpoint for_loop_ret {A R : Type} (body : Z → A → option (A + R)) (i : Z) (n : nat) (a : A)
  : option (A + R) :=
  match n with
  | O => Some (inl a)
  | S n' =>
      match body i a with
      | Some (inl a') => for_loop_ret body (i + 1) n' a'
      | r => r
      end
  end.

(** ** The bit primitives [BitUtil<TToken, false>] *)

Module BU.

(** Modelled from the spec: [BitUtil_uint32.h] and [BitUtil_uint64.h] are not
    among the sources.  [TestBit(word, pos) → bool]. *)
Definition TestBit (w pos : Z) : bool := Z.testbit w pos.

(** Modelled from the spec: [SetBit(word*, pos)], the word with bit [pos] set. *)
Definition SetBit (T : uint_t) (w pos : Z) : Z :=
  wrap_t T (Z.lor w (Z.shiftl 1 pos)).

(** Modelled from the spec: [ClearBit(word*, pos)], the word with bit [pos]
    cleared. *)
Definition ClearBit (T : uint_t) (w pos : Z) : Z :=
  wrap_t T (Z.land w (Z.lnot (Z.shiftl 1 pos))).

(** Modelled from the spec: [ClearAllBits(wordArray, count)] zeroes [count]
    words. *)
Definition ClearAllBits (arr : list Z) (count : Z) : option (list Z) :=
  if bool_decide (0 ≤ count ≤ Z.of_nat (length arr))
  then Some (replicate (Z.to_nat count) 0 ++ drop (Z.to_nat count) arr)
  else None.

(** Modelled from the spec: [OrVector(dst, a, b, count)], [dst[i] = a[i] | b[i]]
    for [i < count].  Word [i] of [a] and [b] is read before word [i] of [dst]
    is written, so the result is the same when [dst] is [a] or [b] itself. *)
Definition OrVector (dst a b : list Z) (count : Z) : option (list Z) :=
  if bool_decide (0 ≤ count ≤ Z.of_nat (length dst) ∧ count ≤ Z.of_nat (length a)
                  ∧ count ≤ Z.of_nat (length b))
  then Some (zip_with Z.lor (take (Z.to_nat count) a) (take (Z.to_nat count) b)
             ++ drop (Z.to_nat count) dst)
  else None.

(** Modelled from the spec: [AndVector(dst, a, b, count)], [dst[i] = a[i] & b[i]]
    for [i < count]. *)
Definition AndVector (dst a b : list Z) (count : Z) : option (list Z) :=
  if bool_decide (0 ≤ count ≤ Z.of_nat (length dst) ∧ count ≤ Z.of_nat (length a)
                  ∧ count ≤ Z.of_nat (length b))
  then Some (zip_with Z.land (take (Z.to_nat count) a) (take (Z.to_nat count) b)
             ++ drop (Z.to_nat count) dst)
  else None.

(** The lowest set bit among the positions [i, i + n). *)
Fixpoint scan_from (n : nat) (i w : Z) : option Z :=
  match n with
  | O => None
  | S n' => if Z.testbit w i then Some i else scan_from n' (i + 1) w
  end.

(** Modelled from the spec: [FindLowestSetBit(word) → (index, found)], in the
    source [BitScanForward(&idx, token)]: [Some idx] when found, [None] for a
    zero word. *)
Definition BitScanForward (T : uint_t) (w : Z) : option Z :=
  scan_from (Z.to_nat (bits T)) 0 w.

End BU.

(** ** The class *)

Record BitSet : Type := mkBitSet {
  TokenArray : option (list Z);
  LastTokenMask : Z;
  Tokens : Z;
  MaxElements : Z
}.

Definition with_TokenArray (s : BitSet) (p : option (list Z)) : BitSet :=
  {| TokenArray := p; LastTokenMask := LastTokenMask s;
     Tokens := Tokens s; MaxElements := MaxElements s |}.

Section BitSet.

(** [NDEBUG]: whether [assert] is compiled out. *)
Variable NDEBUG : bool.

(** The template parameters. *)
Variables TElement TToken : uint_t.

(** The contents of freshly allocated memory, word by word. *)
Variable indeterminate : nat → Z.

(** [assert(c)] of <assert.h>. *)
Definition assert (c : bool) : option unit :=
  if NDEBUG then Some tt else if c then Some tt else None.

Definition ElementsPerToken : Z := wrap_unsigned (sizeof TToken * 8).

Definition ReqSize (r : Z) : Z := wrap_ulong (sizeof TToken * Z.max r 16).

(** [malloc(size)]: a block of [size / sizeof(TToken)] words of indeterminate
    content.  Allocation is taken to succeed; the source does not test the
    pointer. *)
Definition malloc (size : Z) : option (list Z) :=
  Some ((λ i, wrap_t TToken (indeterminate i)) <$> seq 0 (Z.to_nat (size / sizeof TToken))).

(** [realloc(p, size)]: the old words as far as they fit, indeterminate ones
    after them; [realloc(nullptr, size)] is [malloc(size)]. *)
Definition realloc (p : option (list Z)) (size : Z) : option (list Z) :=
  let old := default [] p in
  let n := Z.to_nat (size / sizeof TToken) in
  Some (take n old
        ++ ((λ i, wrap_t TToken (indeterminate i)) <$> seq (length old) (n - length old))).

(** [memcpy(dst, src, sizeof(TToken) * n)]. *)
Definition memcpy (dst src : list Z) (n : Z) : option (list Z) :=
  if bool_decide (0 ≤ n ≤ Z.of_nat (length dst) ∧ n ≤ Z.of_nat (length src))
  then Some (take (Z.to_nat n) src ++ drop (Z.to_nat n) dst)
  else None.

(** [void Clear()] *)
Definition Clear (this : BitSet) : option BitSet :=
  arr ← TokenArray this;
  arr' ← BU.ClearAllBits arr (Tokens this);
  Some (with_TokenArray this (Some arr')).

(** [BitSet(unsigned maxElements)] *)
Definition BitSet_new (maxElements : Z) : option BitSet :=
  let Tokens0 := maxElements / ElementsPerToken in
  let Tokens1 :=
    if negb (wrap_unsigned (Tokens0 * ElementsPerToken) =? maxElements)
    then wrap_unsigned (Tokens0 + 1) else Tokens0 in
  let TokenArray := malloc (ReqSize Tokens1) in
  let offset := maxElements mod ElementsPerToken in
  mask ← for_loop (λ i m, Some (BU.SetBit TToken m i)) 0 (Z.to_nat offset) 0;
  Clear {| TokenArray := TokenArray; LastTokenMask := mask;
           Tokens := Tokens1; MaxElements := maxElements |}.

(** [void CopyFrom(const BitSet& copyFrom)] *)
Definition CopyFrom (this copyFrom : BitSet) : option BitSet :=
  assert (Tokens copyFrom =? Tokens this);;
  assert (LastTokenMask copyFrom =? LastTokenMask this);;
  assert (MaxElements copyFrom =? MaxElements this);;
  dst ← TokenArray this;
  src ← TokenArray copyFrom;
  arr' ← memcpy dst src (Tokens this);
  Some (with_TokenArray this (Some arr')).

(** [BitSet(const BitSet& copyFrom)] *)
Definition BitSet_copy (copyFrom : BitSet) : option BitSet :=
  CopyFrom {| Tokens := Tokens copyFrom;
              LastTokenMask := LastTokenMask copyFrom;
              MaxElements := MaxElements copyFrom;
              TokenArray := malloc (ReqSize (Tokens copyFrom)) |} copyFrom.

(** [BitSet(BitSet&& rhs)]: the new object and what is left of [rhs]. *)
Definition BitSet_move (rhs : BitSet) : BitSet * BitSet :=
  ({| TokenArray := TokenArray rhs; LastTokenMask := LastTokenMask rhs;
      Tokens := Tokens rhs; MaxElements := MaxElements rhs |},
   with_TokenArray rhs None).

(** [BitSet& operator= (const BitSet& rh)] *)
Definition assign (this rh : BitSet) : option BitSet :=
  let this :=
    if negb (Tokens rh =? Tokens this)
    then {| Tokens := Tokens rh;
            LastTokenMask := LastTokenMask rh;
            MaxElements := MaxElements rh;
            TokenArray := realloc (TokenArray this) (ReqSize (Tokens rh)) |}
    else this in
  CopyFrom this rh.

(** [bool Contains(TElement element) const] *)
Definition Contains (this : BitSet) (element : Z) : option bool :=
  assert (element <? wrap_unsigned (Tokens this * ElementsPerToken));;
  assert (element <? MaxElements this);;
  let token := element / ElementsPerToken in
  let offset := element mod ElementsPerToken in
  arr ← TokenArray this;
  w ← index arr token;
  Some (BU.TestBit w offset).

(** [void Add(TElement element)] *)
Definition Add (this : BitSet) (element : Z) : option BitSet :=
  assert (element <? wrap_unsigned (Tokens this * ElementsPerToken));;
  assert (element <? MaxElements this);;
  let token := element / ElementsPerToken in
  let offset := element mod ElementsPerToken in
  arr ← TokenArray this;
  w ← index arr token;
  arr' ← store arr token (BU.SetBit TToken w offset);
  Some (with_TokenArray this (Some arr')).

(** [void Remove(TElement element)] *)
Definition Remove (this : BitSet) (element : Z) : option BitSet :=
  assert (element <? wrap_unsigned (Tokens this * ElementsPerToken));;
  assert (element <? MaxElements this);;
  let token := element / ElementsPerToken in
  let offset := element mod ElementsPerToken in
  arr ← TokenArray this;
  w ← index arr token;
  arr' ← store arr token (BU.ClearBit TToken w offset);
  Some (with_TokenArray this (Some arr')).

(** [bool IsEmpty() const] *)
Definition IsEmpty (this : BitSet) : option bool :=
  arr ← TokenArray this;
  r ← for_loop_ret (λ s (_ : unit),
         w ← index arr s;
         if negb (w =? 0) then Some (inr false) else Some (inl tt))
       0 (Z.to_nat (Tokens this)) tt;
  Some (match r with inl _ => true | inr b => b end).

(** [unsigned GetMaxElements() const] *)
Definition GetMaxElements (this : BitSet) : Z := MaxElements this.

(** [void UnionWith(const BitSet& c)] *)
Definition UnionWith (this c : BitSet) : option BitSet :=
  assert (Tokens c =? Tokens this);;
  dst ← TokenArray this;
  src ← TokenArray c;
  arr' ← BU.OrVector dst dst src (Tokens this);
  Some (with_TokenArray this (Some arr')).

(** [void IntersectWith(const BitSet& c)] *)
Definition IntersectWith (this c : BitSet) : option BitSet :=
  assert (Tokens c =? Tokens this);;
  dst ← TokenArray this;
  src ← TokenArray c;
  arr' ← BU.AndVector dst dst src (Tokens this);
  Some (with_TokenArray this (Some arr')).

(** [void Complement()] *)
Definition Complement (this : BitSet) : option BitSet :=
  arr ← TokenArray this;
  arr' ← for_loop (λ s arr,
            w ← index arr s;
            store arr s (wrap_t TToken (Z.lnot w)))
          0 (Z.to_nat (Tokens this)) arr;
  Some (with_TokenArray this (Some arr')).

(** *** [ForEachMember] *)

Section ForEachMember.

(** The visitor [std::function<bool(TElement)>]: a call may change what the
    closure captured, the state [St]. *)
Context {St : Type}.
Variable cb : Z → St → bool * St.

(** The [while] loop over the local copy [token] of one word.  Each turn
    clears one set bit of [token], so a word of [ElementsPerToken] bits is
    exhausted within [ElementsPerToken] turns: that is the fuel it is given.
    The result is the visitor's state and whether enumeration goes on
    ([false]: the visitor stopped it and the function returns). *)
Fixpoint scan_token (fuel : nat) (offset token : Z) (st : St) : option (bool * St) :=
  match BU.BitScanForward TToken token with
  | None => Some (true, st)
  | Some idx =>
      match fuel with
      | O => None
      | S fuel' =>
          let st_ := wrap_ulong (idx + offset) in
          let '(cont, st') := cb (wrap_t TElement st_) st in
          if negb cont then Some (false, st')
          else scan_token fuel' offset (BU.ClearBit TToken token idx) st'
      end
  end.

(** The body of the [for] loop.  Its state is the object, the local [offset]
    and the visitor's state. *)
Definition ForEachMember_body (i : Z) (a : BitSet * Z * St)
  : option (BitSet * Z * St + BitSet * St) :=
  let '(this, offset, st) := a in
  arr ← TokenArray this;
  token ← index arr i;
  let token :=
    if i =? wrap_unsigned (Tokens this - 1)
    then Z.land token (LastTokenMask this) else token in
  '(cont, st') ← scan_token (Z.to_nat ElementsPerToken) offset token st;
  if negb cont then Some (inr (this, st'))
  else Some (inl (this, wrap_int (offset + ElementsPerToken), st')).

(** [void ForEachMember(std::function<bool(TElement)> cb) const]: the object
    and the visitor's state when the call returns. *)
Definition ForEachMember (this : BitSet) (st : St) : option (BitSet * St) :=
  r ← for_loop_ret ForEachMember_body 0 (Z.to_nat (Tokens this)) (this, 0, st);
  Some (match r with
        | inl (this', _, st') => (this', st')
        | inr r => r
        end).

End ForEachMember.

End BitSet.

(** ** Specification vocabulary *)

(** [ceil(a / b)] for [b > 0]. *)
Definition ceil_div (a b : Z) : Z := (a + b - 1) / b.

(** The relation between the word count and the universe size. *)
Definition word_count_ok (T : uint_t) (s : BitSet) : Prop :=
  Tokens s = ceil_div (MaxElements s) (bits T).

(** A word of type [T]. *)
Definition is_word (T : uint_t) (w : Z) : Prop := 0 ≤ w < 2 ^ bits T.

(** The state of a live object of [BitSet<_, T>]: the universe size is an
    [unsigned], the word count fits it, and the storage block holds at least
    [Tokens] words of type [T]. *)
Record wf (T : uint_t) (s : BitSet) : Prop := mk_wf {
  wf_MaxElements : 0 ≤ MaxElements s < 2 ^ 32;
  wf_Tokens : word_count_ok T s;
  wf_TokenArray :
    ∃ arr, TokenArray s = Some arr ∧ Tokens s ≤ Z.of_nat (length arr) ∧ Forall (is_word T) arr
}.

(** Universe-compatible instances. *)
Definition compatible (a b : BitSet) : Prop :=
  Tokens a = Tokens b ∧ MaxElements a = MaxElements b ∧ LastTokenMask a = LastTokenMask b.

(** In a checked build the first assertion of [Contains], [Add] and [Remove]
    multiplies in [unsigned]; the product is the true one up to this universe
    size. *)
Definition assert_exact (NDEBUG : bool) (T : uint_t) (s : BitSet) : Prop :=
  NDEBUG = true ∨ MaxElements s ≤ 2 ^ 32 - bits T.

(** Two calls of [Contains] on objects of the universe of [s] agree: they give
    the same result, and they return wherever [assert_exact] holds. *)
Definition agree (NDEBUG : bool) (T : uint_t) (s : BitSet) (x y : option bool) : Prop :=
  x = y ∧ (assert_exact NDEBUG T s → is_Some x).

(** ** Vocabulary of the proofs *)

(** The two assertions that open [Contains], [Add] and [Remove], as the
    build evaluates them. *)
Definition asserts_hold (NDEBUG : bool) (T : uint_t) (s : BitSet) (e : Z) : bool :=
  NDEBUG || ((e <? wrap_unsigned (Tokens s * ElementsPerToken T)) && (e <? MaxElements s)).

(** What [Contains] reads once the assertions are passed. *)
Definition read_bit (T : uint_t) (s : BitSet) (e : Z) : option bool :=
  arr ← TokenArray s;
  w ← index arr (e / ElementsPerToken T);
  Some (BU.TestBit w (e mod ElementsPerToken T)).

(** What [Add] ([f := BU.SetBit T]) and [Remove] ([f := BU.ClearBit T]) write
    once the assertions are passed. *)
Definition write_bit (T : uint_t) (f : Z → Z → Z) (s : BitSet) (e : Z) : option BitSet :=
  arr ← TokenArray s;
  w ← index arr (e / ElementsPerToken T);
  arr' ← store arr (e / ElementsPerToken T) (f w (e mod ElementsPerToken T));
  Some (with_TokenArray s (Some arr')).

(** The block [malloc] returns for [r] words. *)
Definition fresh_block (T : uint_t) (indeterminate : nat → Z) (r : Z) : list Z :=
  (λ i, wrap_t T (indeterminate i)) <$> seq 0 (Z.to_nat (Z.max r 16)).

(** The word [Complement] stores for a word [w]: [~w] converted back to the
    word type. *)
Definition flip_word (T : uint_t) (w : Z) : Z := wrap_t T (Z.lnot w).

(** The shape [BU.OrVector] and [BU.AndVector] share. *)
Definition vector_op (f : Z → Z → Z) (dst a b : list Z) (count : Z) : option (list Z) :=
  if bool_decide (0 ≤ count ≤ Z.of_nat (length dst) ∧ count ≤ Z.of_nat (length a)
                  ∧ count ≤ Z.of_nat (length b))
  then Some (zip_with f (take (Z.to_nat count) a) (take (Z.to_nat count) b)
             ++ drop (Z.to_nat count) dst)
  else None.

(** The shape [UnionWith] and [IntersectWith] share. *)
Definition combine_with (ND : bool) (f : Z → Z → Z) (this c : BitSet) : option BitSet :=
  assert ND (Tokens c =? Tokens this);;
  dst ← TokenArray this;
  src ← TokenArray c;
  arr' ← vector_op f dst dst src (Tokens this);
  Some (with_TokenArray this (Some arr')).

(** A word operation that works bit by bit, as [fb] does on booleans. *)
Definition bitwise (f : Z → Z → Z) (fb : bool → bool → bool) : Prop :=
  ∀ x y j, 0 ≤ j → Z.testbit (f x y) j = fb (Z.testbit x j) (Z.testbit y j).

(** The attributes of an object: everything but the storage block. *)
Definition attributes (s : BitSet) : Z * Z * Z := (Tokens s, MaxElements s, LastTokenMask s).

(** The member functions that can be called on a live object. *)
Inductive method : Type :=
  | m_Clear
  | m_CopyFrom (copyFrom : BitSet)
  | m_assign (rh : BitSet)
  | m_Contains (element : Z)
  | m_Add (element : Z)
  | m_Remove (element : Z)
  | m_IsEmpty
  | m_GetMaxElements
  | m_UnionWith (c : BitSet)
  | m_IntersectWith (c : BitSet)
  | m_Complement
  | m_ForEachMember (St : Type) (cb : Z → St → bool * St) (st : St).

(** The object after a call that returns. *)
Definition call (ND : bool) (TE T : uint_t) (indet : nat → Z) (m : method) (this : BitSet)
  : option BitSet :=
  match m with
  | m_Clear => Clear this
  | m_CopyFrom c => CopyFrom ND this c
  | m_assign rh => assign ND T indet this rh
  | m_Contains e => Contains ND T this e;; Some this
  | m_Add e => Add ND T this e
  | m_Remove e => Remove ND T this e
  | m_IsEmpty => IsEmpty this;; Some this
  | m_GetMaxElements => Some this
  | m_UnionWith c => UnionWith ND this c
  | m_IntersectWith c => IntersectWith ND this c
  | m_Complement => Complement T this
  | m_ForEachMember St cb st => fst <$> ForEachMember TE T cb this st
  end.

(** The other object a call takes is a live object too. *)
Definition operand_ok (T : uint_t) (m : method) : Prop :=
  match m with
  | m_CopyFrom c | m_assign c | m_UnionWith c | m_IntersectWith c => word_count_ok T c
  | _ => True
  end.

(** What the specification has the visitor see: the elements of [l] in
    order, up to and including the first one it answers "stop" to.  The result
    is whether the visitor is still going on, and its state. *)
Fixpoint visit {St : Type} (cb : Z → St → bool * St) (l : list Z) (st : St) : bool * St :=
  match l with
  | [] => (true, st)
  | e :: l' =>
      let '(cont, st') := cb e st in
      if negb cont then (false, st') else visit cb l' st'
  end.

(** The members of a set, in ascending order: the elements of the universe
    that [Contains] answers true for. *)
Definition members (ND : bool) (T : uint_t) (s : BitSet) : list Z :=
  filter (λ e, Contains ND T s e = Some true) (seqZ 0 (MaxElements s)).

(** Element [e] is in the universe of [s] and its bit is set. *)
Definition present (T : uint_t) (s : BitSet) (e : Z) : Prop :=
  e < MaxElements s ∧ read_bit T s e = Some true.

#[local] Instance present_dec T s e : Decision (present T s e) :=
  (_ : Decision (e < MaxElements s ∧ read_bit T s e = Some true)).

(** The positions of the set bits of the word [w] from position [lo] on, in
    ascending order. *)
Definition set_bits (T : uint_t) (w lo : Z) : list Z :=
  filter (λ j, Z.testbit w j = true) (seqZ lo (bits T - lo)).

(** The element [ForEachMember] hands to the visitor for bit [idx] of a word:
    [idx + offset] in [unsigned long], converted to [TElement]. *)
Definition as_element (TE : uint_t) (offset idx : Z) : Z :=
  wrap_t TE (wrap_ulong (idx + offset)).

(** A visitor that records what it is shown, and stops after the first
    element when [stop] is set. *)
Definition recorder (stop : bool) (e : Z) (seen : list Z) : bool * list Z :=
  (negb stop, seen ++ [e]).

(** The set of universe size 64 over [uint32_t] words that holds 0, 31, 32
    and 63, as the constructor and four calls of [Add] leave it. *)
Definition two_full_words (indet : nat → Z) : BitSet :=
  {| TokenArray := Some ([2147483649; 2147483649] ++ drop 2 (fresh_block uint32_t indet 2));
     LastTokenMask := 0;
     Tokens := 2;
     MaxElements := 64 |}.

(** The scenario of the specification: universe size 70 over [uint32_t]
    words (three words, the mask covering the low 6 bits of the last one),
    holding 0, 31, 32 and 69. *)
Definition scenario_70 : BitSet :=
  {| TokenArray := Some ([2147483649; 1; 32] ++ replicate 13 0);
     LastTokenMask := 63;
     Tokens := 3;
     MaxElements := 70 |}.

(** The sets of the other scenario: universe size 10 over [uint32_t] words,
    the members given by the bits of [w]. *)
Definition scenario_10 (w : Z) : BitSet :=
  {| TokenArray := Some (w :: replicate 15 0);
     LastTokenMask := 1023;
     Tokens := 1;
     MaxElements := 10 |}.

(** The state of an object any sequence of calls can leave behind: [wf] and
    the mask the constructor builds for the universe size. *)
Definition live (T : uint_t) (s : BitSet) : Prop :=
  wf T s ∧ LastTokenMask s = Z.ones (MaxElements s mod bits T).

(** The other object a call takes is in such a state too. *)
Definition operand_live (T : uint_t) (m : method) : Prop :=
  match m with
  | m_CopyFrom c | m_assign c | m_UnionWith c | m_IntersectWith c => live T c
  | _ => True
  end.

(** No bit of the first [Tokens] words that lies at or beyond the universe
    size is set: the state of the unused bits of the last word as the
    constructor leaves them. *)
Definition tail_clear (T : uint_t) (s : BitSet) : Prop :=
  ∀ e, MaxElements s ≤ e < Tokens s * bits T → read_bit T s e = Some false.

(** The first element [ForEachMember] does not reach: the last word counts
    as far as [LastTokenMask] lets it, [MaxElements mod bits T] bits. *)
Definition visible_bound (T : uint_t) (s : BitSet) : Z :=
  (Tokens s - 1) * bits T + MaxElements s mod bits T.

(** Element [e] is one [ForEachMember] reaches and its bit is set. *)
Definition shown (T : uint_t) (s : BitSet) (e : Z) : Prop :=
  e < visible_bound T s ∧ read_bit T s e = Some true.

#[local] Instance shown_dec T s e : Decision (shown T s e) :=
  (_ : Decision (e < visible_bound T s ∧ read_bit T s e = Some true)).

(** [scenario_70] after [Clear()]. *)
Definition cleared_70 : BitSet :=
  {| TokenArray := Some (replicate 16 0);
     LastTokenMask := 63;
     Tokens := 3;
     MaxElements := 70 |}.

(** ** Machine integers: basic facts *)

Lemma bits_range T : 8 ≤ bits T ≤ 64.
Proof. destruct T; cbv; split; discriminate. Qed.

Lemma ElementsPerToken_bits T : ElementsPerToken T = bits T.
Proof. by destruct T. Qed.

Lemma index_lookup arr i : 0 ≤ i → index arr i = arr !! Z.to_nat i.
Proof. intros Hi. unfold index. by rewrite bool_decide_eq_true_2. Qed.

Lemma index_Some arr i w :
  index arr i = Some w ↔ 0 ≤ i ∧ arr !! Z.to_nat i = Some w.
Proof.
  unfold index. case_bool_decide.
  - split; [by intros ?|by intros [_ ?]].
  - split; [done|intros [? _]; lia].
Qed.

Lemma index_lt arr i w : index arr i = Some w → 0 ≤ i < Z.of_nat (length arr).
Proof.
  intros [Hi Hw]%index_Some. apply lookup_lt_Some in Hw. lia.
Qed.

Lemma store_Some arr i v arr' :
  store arr i v = Some arr' ↔
  0 ≤ i < Z.of_nat (length arr) ∧ arr' = <[Z.to_nat i := v]> arr.
Proof.
  unfold store. case_bool_decide.
  - split; [by intros [= <-]|by intros [_ ->]].
  - split; [done|intros [? _]; lia].
Qed.

Lemma store_in_range arr i v :
  0 ≤ i < Z.of_nat (length arr) → store arr i v = Some (<[Z.to_nat i := v]> arr).
Proof. intros Hi. unfold store. by rewrite bool_decide_eq_true_2. Qed.

Lemma index_store arr i v arr' j :
  store arr i v = Some arr' → 0 ≤ j →
  index arr' j = if bool_decide (i = j) then Some v else index arr j.
Proof.
  intros [Hi ->]%store_Some Hj. rewrite !index_lookup by done.
  case_bool_decide as Hij.
  - subst j. apply list_lookup_insert_eq. lia.
  - apply list_lookup_insert_ne. lia.
Qed.

(** ** Bit primitives: what the container relies on *)

Lemma TestBit_SetBit T w pos pos' :
  0 ≤ pos < bits T → 0 ≤ pos' < bits T →
  BU.TestBit (BU.SetBit T w pos) pos' = bool_decide (pos = pos') || BU.TestBit w pos'.
Proof.
  intros Hp Hp'. unfold BU.TestBit, BU.SetBit, wrap_t, wrap.
  rewrite Z.mod_pow2_bits_low by lia.
  rewrite Z.lor_spec. rewrite Z.shiftl_spec by lia.
  rewrite orb_comm. f_equal.
  case_bool_decide as Hpp.
  - subst. by rewrite Z.sub_diag.
  - destruct (decide (pos' < pos)).
    + apply Z.testbit_neg_r. lia.
    + apply (Z.bits_above_log2 1); simpl; lia.
Qed.

Lemma TestBit_ClearBit T w pos pos' :
  0 ≤ pos < bits T → 0 ≤ pos' < bits T →
  BU.TestBit (BU.ClearBit T w pos) pos' = negb (bool_decide (pos = pos')) && BU.TestBit w pos'.
Proof.
  intros Hp Hp'. unfold BU.TestBit, BU.ClearBit, wrap_t, wrap.
  rewrite Z.mod_pow2_bits_low by lia.
  rewrite Z.land_spec, Z.lnot_spec by lia. rewrite Z.shiftl_spec by lia.
  rewrite andb_comm. f_equal. f_equal.
  case_bool_decide as Hpp.
  - subst. by rewrite Z.sub_diag.
  - destruct (decide (pos' < pos)).
    + apply Z.testbit_neg_r. lia.
    + apply (Z.bits_above_log2 1); simpl; lia.
Qed.

(** ** [Contains], [Add] and [Remove] *)

Lemma Contains_unfold ND T s e :
  Contains ND T s e = if asserts_hold ND T s e then read_bit T s e else None.
Proof.
  unfold Contains, asserts_hold, assert, read_bit.
  destruct ND, (e <? wrap_unsigned _), (e <? MaxElements s); reflexivity.
Qed.

Lemma Add_unfold ND T s e :
  Add ND T s e = if asserts_hold ND T s e then write_bit T (BU.SetBit T) s e else None.
Proof.
  unfold Add, asserts_hold, assert, write_bit.
  destruct ND, (e <? wrap_unsigned _), (e <? MaxElements s); reflexivity.
Qed.

Lemma Remove_unfold ND T s e :
  Remove ND T s e = if asserts_hold ND T s e then write_bit T (BU.ClearBit T) s e else None.
Proof.
  unfold Remove, asserts_hold, assert, write_bit.
  destruct ND, (e <? wrap_unsigned _), (e <? MaxElements s); reflexivity.
Qed.

Lemma asserts_hold_with_TokenArray ND T s p e :
  asserts_hold ND T (with_TokenArray s p) e = asserts_hold ND T s e.
Proof. reflexivity. Qed.

Lemma write_bit_Some T f s e s' :
  write_bit T f s e = Some s' →
  ∃ arr w arr',
    TokenArray s = Some arr ∧ index arr (e / bits T) = Some w
    ∧ store arr (e / bits T) (f w (e mod bits T)) = Some arr'
    ∧ s' = with_TokenArray s (Some arr').
Proof.
  unfold write_bit. rewrite ElementsPerToken_bits. intros H.
  destruct (TokenArray s) as [arr|]; simplify_option_eq; eauto 10.
Qed.

Lemma write_bit_asserts_hold ND T f s e s' :
  write_bit T f s e = Some s' → ∀ e', asserts_hold ND T s' e' = asserts_hold ND T s e'.
Proof. intros (? & ? & ? & _ & _ & _ & ->)%write_bit_Some e'. reflexivity. Qed.

(** Element [e] is bit [e mod bits] of word [e / bits]: a write for [e]
    is read back at [e] and at no other element. *)
Lemma read_write_bit T f s e s' e' :
  0 ≤ e' → write_bit T f s e = Some s' →
  read_bit T s' e' =
    arr ← TokenArray s; w ← index arr (e' / bits T);
    Some (BU.TestBit (if bool_decide (e / bits T = e' / bits T)
                      then f w (e mod bits T) else w) (e' mod bits T)).
Proof.
  intros He' (arr & w & arr' & Harr & Hw & Hst & ->)%write_bit_Some.
  pose proof (bits_range T).
  unfold read_bit. rewrite ElementsPerToken_bits, Harr. simpl.
  rewrite (index_store _ _ _ _ _ Hst) by (apply Z.div_pos; lia).
  case_bool_decide as Htok; [|done].
  rewrite <-Htok, Hw. done.
Qed.

Lemma write_bit_is_Some T f s e arr :
  TokenArray s = Some arr → 0 ≤ e → e / bits T < Z.of_nat (length arr) →
  is_Some (write_bit T f s e).
Proof.
  intros Harr He Hlen. pose proof (bits_range T).
  assert (0 ≤ e / bits T) by (apply Z.div_pos; lia).
  unfold write_bit. rewrite ElementsPerToken_bits, Harr. simpl.
  destruct (lookup_lt_is_Some_2 arr (Z.to_nat (e / bits T))) as [w Hw]; [lia|].
  rewrite index_lookup, Hw by done. simpl.
  unfold store. rewrite bool_decide_eq_true_2 by lia. simpl. eauto.
Qed.

Lemma div_lt_ceil_div e n b : 0 < b → 0 ≤ e < n → 0 ≤ e / b < ceil_div n b.
Proof.
  intros Hb He. unfold ceil_div. split; [apply Z.div_pos; lia|].
  apply Z.div_lt_upper_bound; [lia|].
  pose proof (Z.mul_succ_div_gt (n + b - 1) b Hb).
  pose proof (Z.mod_pos_bound (n + b - 1) b Hb).
  pose proof (Z.div_mod (n + b - 1) b). lia.
Qed.

Lemma asserts_hold_valid ND T s e :
  wf T s → 0 ≤ e < MaxElements s → assert_exact ND T s → asserts_hold ND T s e = true.
Proof.
  intros [Hmax Htok _] He [->|Hex]; [done|].
  unfold asserts_hold. apply orb_true_iff. right.
  pose proof (bits_range T) as Hb.
  red in Htok. rewrite ElementsPerToken_bits, Htok.
  assert (0 ≤ ceil_div (MaxElements s) (bits T) * bits T < 2 ^ 32 ∧
          MaxElements s ≤ ceil_div (MaxElements s) (bits T) * bits T) as [Hr Hle].
  { unfold ceil_div.
    pose proof (Z.mod_pos_bound (MaxElements s + bits T - 1) (bits T)).
    pose proof (Z.div_mod (MaxElements s + bits T - 1) (bits T)). lia. }
  unfold wrap_unsigned, wrap. rewrite Z.mod_small by done.
  apply andb_true_iff. split; apply Z.ltb_lt; lia.
Qed.

Lemma valid_token_lt T s e arr :
  wf T s → TokenArray s = Some arr → 0 ≤ e < MaxElements s →
  0 ≤ e / bits T < Z.of_nat (length arr).
Proof.
  intros [_ Htok (arr' & Harr & Hlen & _)] Harr' He.
  pose proof (bits_range T). assert (arr' = arr) as -> by congruence.
  red in Htok. pose proof (div_lt_ceil_div e (MaxElements s) (bits T)). lia.
Qed.

Lemma Add_is_Some ND T s e :
  wf T s → 0 ≤ e < MaxElements s → assert_exact ND T s → is_Some (Add ND T s e).
Proof.
  intros Hwf He Hex. rewrite Add_unfold, asserts_hold_valid by done.
  destruct (wf_TokenArray _ _ Hwf) as (arr & Harr & _).
  eapply write_bit_is_Some; [done|lia|]. by eapply valid_token_lt.
Qed.

Lemma Remove_is_Some ND T s e :
  wf T s → 0 ≤ e < MaxElements s → assert_exact ND T s → is_Some (Remove ND T s e).
Proof.
  intros Hwf He Hex. rewrite Remove_unfold, asserts_hold_valid by done.
  destruct (wf_TokenArray _ _ Hwf) as (arr & Harr & _).
  eapply write_bit_is_Some; [done|lia|]. by eapply valid_token_lt.
Qed.

Lemma Contains_is_Some ND T s e :
  wf T s → 0 ≤ e < MaxElements s → assert_exact ND T s → is_Some (Contains ND T s e).
Proof.
  intros Hwf He Hex. rewrite Contains_unfold, asserts_hold_valid by done.
  destruct (wf_TokenArray _ _ Hwf) as (arr & Harr & _).
  pose proof (valid_token_lt T s e arr Hwf Harr He) as Ht.
  unfold read_bit. rewrite ElementsPerToken_bits, Harr. simpl.
  destruct (lookup_lt_is_Some_2 arr (Z.to_nat (e / bits T))) as [w Hw]; [lia|].
  rewrite index_lookup, Hw by lia. simpl. eauto.
Qed.

(** C6.  For every set and every valid element [e]
    ([0 <= e < universeSize]): immediately after [Add(e)], [Contains(e)]
    returns true; and after a subsequent [Remove(e)], [Contains(e)] returns
    false.  [Add(e)] returns in every unchecked build, and in a checked build
    whenever its first assertion is computed without wrap-around; whenever it
    returns, the two following calls return too, with these results. *)
Theorem Add_then_Remove_Contains ND T s e :
  wf T s → 0 ≤ e < MaxElements s →
  (assert_exact ND T s → is_Some (Add ND T s e)) ∧
  ∀ s1, Add ND T s e = Some s1 →
    Contains ND T s1 e = Some true ∧
    ∃ s2, Remove ND T s1 e = Some s2 ∧ Contains ND T s2 e = Some false.
Proof.
  intros Hwf He. split; [by apply Add_is_Some|].
  intros s1. rewrite Add_unfold.
  destruct (asserts_hold ND T s e) eqn:Hpre; [|done]. intros Hadd.
  pose proof (bits_range T) as Hb.
  assert (0 ≤ e mod bits T < bits T) as Hoff by (apply Z.mod_pos_bound; lia).
  pose proof (write_bit_asserts_hold ND _ _ _ _ _ Hadd) as Hpre1.
  pose proof (read_write_bit _ _ _ _ _ e (proj1 He) Hadd) as Hread.
  destruct (write_bit_Some _ _ _ _ _ Hadd) as (arr & w & arr' & Harr & Hw & Hst & Hs1).
  rewrite Harr in Hread. simpl in Hread. rewrite Hw in Hread. simpl in Hread.
  rewrite bool_decide_eq_true_2 in Hread by done.
  rewrite TestBit_SetBit, bool_decide_eq_true_2 in Hread by done.
  split.
  { by rewrite Contains_unfold, Hpre1, Hpre. }
  (* [Remove] passes the assertions [Add] passed and finds the word [Add] wrote. *)
  assert (is_Some (write_bit T (BU.ClearBit T) s1 e)) as [s2 Hrem].
  { apply store_Some in Hst as [Hlt ->]. subst s1.
    eapply (write_bit_is_Some _ _ _ _ (<[Z.to_nat (e / bits T):=_]> arr)); [done|lia|].
    rewrite length_insert. lia. }
  exists s2. split.
  { by rewrite Remove_unfold, Hpre1, Hpre. }
  rewrite Contains_unfold, (write_bit_asserts_hold ND _ _ _ _ _ Hrem), Hpre1, Hpre.
  rewrite (read_write_bit _ _ _ _ _ e (proj1 He) Hrem).
  unfold read_bit in Hread. rewrite ElementsPerToken_bits in Hread.
  destruct (TokenArray s1) as [arr1|]; [|done]. simpl in *.
  destruct (index arr1 (e / bits T)) as [w1|]; [|done]. simpl in *.
  rewrite bool_decide_eq_true_2 by done.
  by rewrite TestBit_ClearBit, bool_decide_eq_true_2 by done.
Qed.

(** C10.  For every set and every pair of distinct valid elements [e] and
    [f], calling [Add(e)] or [Remove(e)] leaves [Contains(f)] unchanged.  Both
    calls return under the condition stated for [Add] in C6. *)
Theorem Add_Remove_frame ND T s e f :
  wf T s → 0 ≤ e < MaxElements s → 0 ≤ f < MaxElements s → e ≠ f →
  (assert_exact ND T s → is_Some (Add ND T s e) ∧ is_Some (Remove ND T s e)) ∧
  (∀ s', Add ND T s e = Some s' →
     agree ND T s (Contains ND T s' f) (Contains ND T s f)) ∧
  (∀ s', Remove ND T s e = Some s' →
     agree ND T s (Contains ND T s' f) (Contains ND T s f)).
Proof.
  intros Hwf He Hf Hef.
  pose proof (bits_range T) as Hb.
  assert (0 ≤ e mod bits T < bits T) as Hoe by (apply Z.mod_pos_bound; lia).
  assert (0 ≤ f mod bits T < bits T) as Hof by (apply Z.mod_pos_bound; lia).
  assert (e / bits T = f / bits T → e mod bits T ≠ f mod bits T) as Hne.
  { intros Hq Hr. apply Hef.
    rewrite (Z.div_mod e (bits T)), (Z.div_mod f (bits T)) by lia. congruence. }
  assert (∀ g s',
    (e / bits T = f / bits T →
     ∀ w, BU.TestBit (g w (e mod bits T)) (f mod bits T) = BU.TestBit w (f mod bits T)) →
    write_bit T g s e = Some s' →
    agree ND T s (Contains ND T s' f) (Contains ND T s f)) as Hframe.
  { intros g s' Hg Hwr.
    assert (Contains ND T s' f = Contains ND T s f) as Heq.
    { rewrite !Contains_unfold.
      rewrite (write_bit_asserts_hold ND _ _ _ _ _ Hwr).
      destruct (asserts_hold ND T s f); [|done].
      rewrite (read_write_bit _ _ _ _ _ f (proj1 Hf) Hwr).
      unfold read_bit. rewrite ElementsPerToken_bits.
      destruct (TokenArray s) as [arr|]; [|done]. simpl.
      destruct (index arr (f / bits T)) as [w|]; [|done]. simpl.
      case_bool_decide; [|done]. by rewrite Hg. }
    split; [done|]. intros Hex. rewrite Heq. by apply Contains_is_Some. }
  split; [|split].
  - intros Hex. split; [by apply Add_is_Some|by apply Remove_is_Some].
  - intros s'. rewrite Add_unfold. destruct (asserts_hold ND T s e); [|done].
    apply Hframe. intros Hq w.
    rewrite TestBit_SetBit, bool_decide_eq_false_2 by auto. done.
  - intros s'. rewrite Remove_unfold. destruct (asserts_hold ND T s e); [|done].
    apply Hframe. intros Hq w.
    rewrite TestBit_ClearBit, bool_decide_eq_false_2 by auto. done.
Qed.

(** ** Construction *)

Lemma testbit_shiftl_1 i j : 0 ≤ i → 0 ≤ j → Z.testbit (Z.shiftl 1 i) j = bool_decide (i = j).
Proof.
  intros Hi Hj. rewrite Z.shiftl_spec by lia.
  case_bool_decide as Hij.
  - subst. by rewrite Z.sub_diag.
  - destruct (decide (j < i)).
    + apply Z.testbit_neg_r. lia.
    + apply (Z.bits_above_log2 1); simpl; lia.
Qed.

Lemma SetBit_ones T i : 0 ≤ i < bits T → BU.SetBit T (Z.ones i) i = Z.ones (i + 1).
Proof.
  intros Hi. unfold BU.SetBit, wrap_t, wrap. apply Z.bits_inj'. intros j Hj.
  rewrite (Z.testbit_ones_nonneg (i + 1)) by lia.
  destruct (decide (j < bits T)) as [Hlt|Hge].
  - rewrite Z.mod_pow2_bits_low by lia.
    rewrite Z.lor_spec, Z.testbit_ones_nonneg, testbit_shiftl_1 by lia.
    case_bool_decide; destruct (Z.ltb_spec j i), (Z.ltb_spec j (i + 1)); simpl; lia.
  - rewrite Z.mod_pow2_bits_high by lia. symmetry. apply Z.ltb_ge. lia.
Qed.

(** The loop of the constructor that builds [LastTokenMask]. *)
Lemma mask_loop_from T i n :
  0 ≤ i → i + Z.of_nat n ≤ bits T →
  for_loop (λ i m, Some (BU.SetBit T m i)) i n (Z.ones i) = Some (Z.ones (i + Z.of_nat n)).
Proof.
  revert i. induction n as [|n IH]; intros i Hi Hn; simpl.
  - by rewrite Z.add_0_r.
  - rewrite SetBit_ones by lia. rewrite IH by lia. do 2 f_equal. lia.
Qed.

Lemma mask_loop T k :
  0 ≤ k ≤ bits T →
  for_loop (λ i m, Some (BU.SetBit T m i)) 0 (Z.to_nat k) 0 = Some (Z.ones k).
Proof.
  intros Hk. change 0 with (Z.ones 0) at 2.
  rewrite mask_loop_from by lia. do 2 f_equal. lia.
Qed.

(** The word count the constructor computes, in its [unsigned] arithmetic. *)
Lemma ctor_Tokens b n :
  0 < b → 0 ≤ n < 2 ^ 32 →
  (if negb (wrap_unsigned (n / b * b) =? n) then wrap_unsigned (n / b + 1) else n / b)
  = ceil_div n b.
Proof.
  intros Hb Hn. unfold wrap_unsigned, wrap, ceil_div.
  pose proof (Z.div_mod n b) as Hdm.
  pose proof (Z.mod_pos_bound n b Hb) as Hmod.
  assert (0 ≤ n / b) as Hq by (apply Z.div_pos; lia).
  assert (n / b * b ≤ n) as Hle by lia.
  rewrite (Z.mod_small (n / b * b)) by lia.
  destruct (Z.eqb_spec (n / b * b) n) as [Heq|Hne]; simpl.
  - apply (Z.div_unique _ _ _ (b - 1)); lia.
  - assert (n / b + 1 ≤ n) by nia.
    rewrite Z.mod_small by lia.
    apply (Z.div_unique _ _ _ (n mod b - 1)); lia.
Qed.

Lemma ReqSize_words T r : 0 ≤ r < 2 ^ 32 → ReqSize T r / sizeof T = Z.max r 16.
Proof.
  intros Hr. unfold ReqSize, wrap_ulong, wrap.
  assert (1 ≤ sizeof T ≤ 8) by (destruct T; simpl; lia).
  rewrite Z.mod_small by nia.
  rewrite Z.mul_comm. apply Z.div_mul. lia.
Qed.

Lemma ceil_div_range n b : 8 ≤ b → 0 ≤ n < 2 ^ 32 → 0 ≤ ceil_div n b < 2 ^ 32.
Proof.
  intros Hb Hn. unfold ceil_div. split.
  - apply Z.div_pos; lia.
  - apply Z.div_lt_upper_bound; lia.
Qed.

Lemma malloc_ReqSize T indet r :
  0 ≤ r < 2 ^ 32 → malloc T indet (ReqSize T r) = Some (fresh_block T indet r).
Proof. intros Hr. unfold malloc, fresh_block. by rewrite ReqSize_words. Qed.

Lemma length_fresh_block T indet r : length (fresh_block T indet r) = Z.to_nat (Z.max r 16).
Proof. unfold fresh_block. by rewrite length_fmap, length_seq. Qed.

Lemma wrap_t_is_word T x : is_word T (wrap_t T x).
Proof.
  unfold is_word, wrap_t, wrap. pose proof (bits_range T).
  apply Z.mod_pos_bound. apply Z.pow_pos_nonneg; lia.
Qed.

Lemma fresh_block_words T indet r : Forall (is_word T) (fresh_block T indet r).
Proof.
  unfold fresh_block. apply Forall_fmap, Forall_forall. intros i _. apply wrap_t_is_word.
Qed.

(** The object the constructor builds. *)
Lemma BitSet_new_Some T indet n :
  0 ≤ n < 2 ^ 32 →
  BitSet_new T indet n =
    Some {| TokenArray :=
              Some (replicate (Z.to_nat (ceil_div n (bits T))) 0
                    ++ drop (Z.to_nat (ceil_div n (bits T)))
                         (fresh_block T indet (ceil_div n (bits T))));
            LastTokenMask := Z.ones (n mod bits T);
            Tokens := ceil_div n (bits T);
            MaxElements := n |}.
Proof.
  intros Hn. pose proof (bits_range T) as Hb.
  pose proof (ceil_div_range n (bits T) (proj1 Hb) Hn) as Hc.
  unfold BitSet_new. rewrite ElementsPerToken_bits.
  rewrite ctor_Tokens by lia.
  rewrite mask_loop by (pose proof (Z.mod_pos_bound n (bits T)); lia).
  rewrite malloc_ReqSize by done.
  unfold Clear, BU.ClearAllBits. cbn [mbind option_bind TokenArray Tokens].
  rewrite length_fresh_block, bool_decide_eq_true_2 by lia.
  reflexivity.
Qed.

Lemma wf_Tokens_range T s : wf T s → 0 ≤ Tokens s < 2 ^ 32.
Proof.
  intros [Hmax Htok _]. red in Htok. rewrite Htok.
  apply ceil_div_range; [apply bits_range|done].
Qed.

Lemma is_word_0 T : is_word T 0.
Proof. pose proof (bits_range T). split; [done|]. apply Z.pow_pos_nonneg; lia. Qed.

Lemma BitSet_new_wf T indet n s :
  0 ≤ n < 2 ^ 32 → BitSet_new T indet n = Some s → wf T s.
Proof.
  intros Hn. rewrite BitSet_new_Some by done. intros [= <-].
  pose proof (ceil_div_range n (bits T) (proj1 (bits_range T)) Hn) as Hc.
  split; simpl; [done|reflexivity|].
  eexists. split; [done|]. split.
  - rewrite length_app, length_replicate, length_drop, length_fresh_block. lia.
  - apply Forall_app. split.
    + apply Forall_replicate, is_word_0.
    + apply Forall_drop, fresh_block_words.
Qed.

(** ** [Clear] and [IsEmpty] *)

Lemma Clear_Some s arr :
  TokenArray s = Some arr → 0 ≤ Tokens s ≤ Z.of_nat (length arr) →
  Clear s = Some (with_TokenArray s
                    (Some (replicate (Z.to_nat (Tokens s)) 0 ++ drop (Z.to_nat (Tokens s)) arr))).
Proof.
  intros Harr Hlen. unfold Clear, BU.ClearAllBits. rewrite Harr. simpl.
  by rewrite bool_decide_eq_true_2.
Qed.

Lemma IsEmpty_loop_zero arr i n :
  (∀ j, i ≤ j < i + Z.of_nat n → index arr j = Some 0) →
  for_loop_ret (λ s (_ : unit),
      w ← index arr s;
      if negb (w =? 0) then Some (inr false) else Some (inl tt)) i n tt
  = Some (inl tt).
Proof.
  revert i. induction n as [|n IH]; intros i Hz; [done|].
  cbn [for_loop_ret]. rewrite Hz by lia. simpl. apply IH. intros j Hj. apply Hz. lia.
Qed.

Lemma IsEmpty_zeroed s rest :
  TokenArray s = Some (replicate (Z.to_nat (Tokens s)) 0 ++ rest) → IsEmpty s = Some true.
Proof.
  intros Harr. unfold IsEmpty. rewrite Harr. simpl.
  rewrite IsEmpty_loop_zero; [done|].
  intros j Hj. rewrite index_lookup by lia.
  rewrite lookup_app_l by (rewrite length_replicate; lia).
  apply lookup_replicate_2. lia.
Qed.

(** C7.  For every universe size [>= 0], [IsEmpty()] returns true immediately
    after construction, and returns true immediately after [Clear()] is called
    on any set of that universe size. *)
Theorem IsEmpty_after_new_and_Clear T indet n :
  0 ≤ n < 2 ^ 32 →
  (BitSet_new T indet n ≫= IsEmpty) = Some true ∧
  ∀ s, wf T s → MaxElements s = n → (Clear s ≫= IsEmpty) = Some true.
Proof.
  intros Hn. split.
  - rewrite BitSet_new_Some by done. simpl. by eapply IsEmpty_zeroed.
  - intros s Hwf _. pose proof (wf_Tokens_range _ _ Hwf) as Ht.
    destruct (wf_TokenArray _ _ Hwf) as (arr & Harr & Hlen & _).
    rewrite (Clear_Some s arr) by (done || lia). simpl. by eapply IsEmpty_zeroed.
Qed.

(** The mask the constructor builds has the [universeSize mod bitsPerWord]
    low bits set and no other: none at all when the universe size is a
    multiple of the word width. *)
Lemma BitSet_new_LastTokenMask T indet n :
  0 ≤ n < 2 ^ 32 →
  LastTokenMask <$> BitSet_new T indet n = Some (Z.ones (n mod bits T)).
Proof. intros Hn. by rewrite BitSet_new_Some. Qed.

(** C2, at a universe of [bits T] elements.  The constructor leaves
    [LastTokenMask] at zero: the loop that sets its bits runs
    [maxElements % ElementsPerToken = 0] times.  The claim has all the bits
    of the word set there. *)
Theorem LastTokenMask_of_full_word T indet :
  LastTokenMask <$> BitSet_new T indet (bits T) = Some 0 ∧ Z.ones (bits T) ≠ 0.
Proof.
  split.
  - rewrite BitSet_new_Some by (destruct T; done). simpl.
    by rewrite Z.mod_same by (destruct T; done).
  - by destruct T.
Qed.

(** ** [ForEachMember] *)

Lemma scan_from_Some n i w idx :
  BU.scan_from n i w = Some idx →
  i ≤ idx < i + Z.of_nat n ∧ Z.testbit w idx = true ∧ ∀ j, i ≤ j < idx → Z.testbit w j = false.
Proof.
  revert i. induction n as [|n IH]; intros i; simpl; [done|].
  destruct (Z.testbit w i) eqn:Hi.
  - intros [= <-]. split; [lia|]. split; [done|]. intros j Hj. lia.
  - intros (Hr & Hset & Hlow)%IH. split; [lia|]. split; [done|].
    intros j Hj. destruct (decide (j = i)) as [->|]; [done|]. apply Hlow. lia.
Qed.

Lemma scan_from_None n i w :
  BU.scan_from n i w = None ↔ ∀ j, i ≤ j < i + Z.of_nat n → Z.testbit w j = false.
Proof.
  revert i. induction n as [|n IH]; intros i; simpl.
  - split; [intros _ j Hj; lia|done].
  - destruct (Z.testbit w i) eqn:Hi.
    + split; [done|]. intros Hz. rewrite Hz in Hi by lia. done.
    + rewrite IH. split.
      * intros Hz j Hj. destruct (decide (j = i)) as [->|]; [done|]. apply Hz. lia.
      * intros Hz j Hj. apply Hz. lia.
Qed.

Lemma BitScanForward_Some T w idx :
  BU.BitScanForward T w = Some idx →
  0 ≤ idx < bits T ∧ Z.testbit w idx = true ∧ ∀ j, 0 ≤ j < idx → Z.testbit w j = false.
Proof.
  unfold BU.BitScanForward. intros (Hr & Hset & Hlow)%scan_from_Some.
  pose proof (bits_range T). split; [lia|done].
Qed.

Lemma BitScanForward_None T w :
  BU.BitScanForward T w = None ↔ ∀ j, 0 ≤ j < bits T → Z.testbit w j = false.
Proof.
  unfold BU.BitScanForward. rewrite scan_from_None.
  pose proof (bits_range T). split; intros Hz j Hj; apply Hz; lia.
Qed.

Section ForEachMember_facts.

Context {St : Type}.
Variables (TE T : uint_t) (cb : Z → St → bool * St).

(** The [while] loop is given fuel enough: a word whose bits below position
    [bits T - fuel] are clear is exhausted in [fuel] turns. *)
Lemma scan_token_is_Some fuel offset token st :
  (∀ j, 0 ≤ j < bits T - Z.of_nat fuel → Z.testbit token j = false) →
  is_Some (scan_token TE T cb fuel offset token st).
Proof.
  revert token st. induction fuel as [|fuel IH]; intros token st Hlow.
  - simpl. destruct (BU.BitScanForward T token) as [idx|] eqn:Hbsf; [|eauto].
    apply BitScanForward_Some in Hbsf as (Hr & Hset & _).
    rewrite Hlow in Hset by lia. done.
  - simpl. destruct (BU.BitScanForward T token) as [idx|] eqn:Hbsf; [|eauto].
    apply BitScanForward_Some in Hbsf as (Hr & Hset & Hmin).
    destruct (cb _ st) as [[] st']; simpl; [|eauto].
    apply IH. intros j Hj.
    pose proof (TestBit_ClearBit T token idx j) as Hc. unfold BU.TestBit in Hc.
    rewrite Hc by lia. clear Hc.
    case_bool_decide as Hij; [done|]. simpl.
    destruct (decide (j < idx)); [apply Hmin; lia|].
    apply Hlow.
    destruct (decide (idx < bits T - Z.of_nat (S fuel))) as [Hlt|]; [|lia].
    rewrite Hlow in Hset by lia. done.
Qed.

(** The loop body hands on the object it was given. *)
Lemma ForEachMember_body_this i this offset st r :
  ForEachMember_body TE T cb i (this, offset, st) = Some r →
  match r with inl (this', _, _) => this' | inr (this', _) => this' end = this.
Proof.
  unfold ForEachMember_body.
  destruct (TokenArray this) as [arr|]; [|done]. simpl.
  destruct (index arr i) as [token|]; [|done]. simpl.
  destruct (scan_token _ _ _ _ _ _ _) as [[[] st']|]; simpl; [| |done]; by intros [= <-].
Qed.

Lemma ForEachMember_loop_this n i this offset st r :
  for_loop_ret (ForEachMember_body TE T cb) i n (this, offset, st) = Some r →
  match r with inl (this', _, _) => this' | inr (this', _) => this' end = this.
Proof.
  revert i offset st. induction n as [|n IH]; intros i offset st; cbn [for_loop_ret].
  - by intros [= <-].
  - destruct (ForEachMember_body _ _ _ _ _) as [[[[this' offset'] st']|[this' st']]|] eqn:Hb; [| |done].
    + apply ForEachMember_body_this in Hb. simpl in Hb. subst this'. apply IH.
    + apply ForEachMember_body_this in Hb. simpl in Hb. subst this'. by intros [= <-].
Qed.

Lemma ForEachMember_body_is_Some i this offset st arr :
  TokenArray this = Some arr → 0 ≤ i < Z.of_nat (length arr) →
  is_Some (ForEachMember_body TE T cb i (this, offset, st)).
Proof.
  intros Harr Hi. unfold ForEachMember_body. rewrite Harr. simpl.
  destruct (lookup_lt_is_Some_2 arr (Z.to_nat i)) as [w Hw]; [lia|].
  rewrite index_lookup, Hw by lia. simpl.
  rewrite ElementsPerToken_bits.
  edestruct (scan_token_is_Some (Z.to_nat (bits T)) offset) as [[[] st'] ->];
    [intros j Hj; pose proof (bits_range T); lia|..]; simpl; eauto.
Qed.

Lemma ForEachMember_loop_is_Some n i this offset st arr :
  TokenArray this = Some arr → 0 ≤ i → i + Z.of_nat n ≤ Z.of_nat (length arr) →
  is_Some (for_loop_ret (ForEachMember_body TE T cb) i n (this, offset, st)).
Proof.
  intros Harr. revert i offset st.
  induction n as [|n IH]; intros i offset st Hi Hn; cbn [for_loop_ret]; [eauto|].
  destruct (ForEachMember_body_is_Some i this offset st arr) as [r Hr]; [done|lia|].
  rewrite Hr. destruct r as [[[this' offset'] st']|]; [|eauto].
  apply ForEachMember_body_this in Hr. simpl in Hr. subst this'.
  apply IH; lia.
Qed.

End ForEachMember_facts.

(** A call that returns hands back the object it was given. *)
Lemma ForEachMember_Some_this {St : Type} TE T (cb : Z → St → bool * St) s st s' st' :
  ForEachMember TE T cb s st = Some (s', st') → s' = s.
Proof.
  unfold ForEachMember. intros H.
  destruct (for_loop_ret _ _ _ _) as [r|] eqn:Hr; [|done].
  apply ForEachMember_loop_this in Hr. cbn [mbind option_bind] in H.
  injection H as H. destruct r as [[[this' ?] ?]|[this' ?]]; simpl in *; congruence.
Qed.

(** C8.  For every set and every visitor, [ForEachMember] leaves the set's
    storage completely unchanged: the call returns, and the object it returns
    is the object it was given, whether or not the visitor stops early. *)
Theorem ForEachMember_unchanged {St : Type} TE T (cb : Z → St → bool * St) s st :
  wf T s →
  ∃ st', ForEachMember TE T cb s st = Some (s, st').
Proof.
  intros Hwf. pose proof (wf_Tokens_range _ _ Hwf) as Ht.
  destruct (wf_TokenArray _ _ Hwf) as (arr & Harr & Hlen & _).
  unfold ForEachMember.
  destruct (ForEachMember_loop_is_Some TE T cb (Z.to_nat (Tokens s)) 0 s 0 st arr)
    as [r Hr]; [done|lia|lia|].
  rewrite Hr. simpl. apply ForEachMember_loop_this in Hr.
  destruct r as [[[this' offset'] st']|[this' st']]; simpl in Hr; subst this'; eauto.
Qed.

(** ** [Complement] *)

Lemma testbit_flip_word T w j :
  0 ≤ j < bits T → Z.testbit (flip_word T w) j = negb (Z.testbit w j).
Proof.
  intros Hj. unfold flip_word, wrap_t, wrap.
  rewrite Z.mod_pow2_bits_low by lia. apply Z.lnot_spec. lia.
Qed.

Lemma testbit_word_high T w j : is_word T w → bits T ≤ j → Z.testbit w j = false.
Proof.
  intros Hw Hj. pose proof (bits_range T).
  rewrite <-(Z.mod_small w (2 ^ bits T)) by done.
  apply Z.mod_pow2_bits_high. lia.
Qed.

Lemma flip_word_involutive T w : is_word T w → flip_word T (flip_word T w) = w.
Proof.
  intros Hw. apply Z.bits_inj'. intros j Hj.
  destruct (decide (j < bits T)).
  - rewrite !testbit_flip_word by lia. apply negb_involutive.
  - rewrite (testbit_word_high T w) by (done || lia).
    apply (testbit_word_high T); [apply wrap_t_is_word|lia].
Qed.

(** The loop of [Complement] over the words [i, i + n). *)
Lemma Complement_loop T n i arr :
  0 ≤ i → i + Z.of_nat n ≤ Z.of_nat (length arr) →
  ∃ arr',
    for_loop (λ s arr, w ← index arr s; store arr s (wrap_t T (Z.lnot w))) i n arr = Some arr'
    ∧ length arr' = length arr
    ∧ ∀ j : nat,
        arr' !! j = if bool_decide (i ≤ Z.of_nat j < i + Z.of_nat n)
                    then flip_word T <$> arr !! j else arr !! j.
Proof.
  revert i arr. induction n as [|n IH]; intros i arr Hi Hn; cbn [for_loop].
  - exists arr. split; [done|]. split; [done|]. intros j.
    by rewrite bool_decide_eq_false_2 by lia.
  - destruct (lookup_lt_is_Some_2 arr (Z.to_nat i)) as [w Hw]; [lia|].
    rewrite index_lookup, Hw by done. cbn [mbind option_bind].
    rewrite (store_in_range arr i) by lia. cbn [mbind option_bind].
    destruct (IH (i + 1) (<[Z.to_nat i:=wrap_t T (Z.lnot w)]> arr)) as (arr' & -> & Hlen & Hlk);
      [lia|rewrite length_insert; lia|].
    exists arr'. split; [done|]. rewrite Hlen, length_insert. split; [done|].
    intros j. rewrite Hlk. destruct (decide (j = Z.to_nat i)) as [->|Hne].
    + rewrite list_lookup_insert_eq by lia.
      rewrite bool_decide_eq_false_2, bool_decide_eq_true_2 by lia. by rewrite Hw.
    + rewrite list_lookup_insert_ne by done.
      repeat case_bool_decide; (done || lia).
Qed.

Lemma Complement_Some T s :
  wf T s →
  ∃ arr arr',
    TokenArray s = Some arr
    ∧ Complement T s = Some (with_TokenArray s (Some arr'))
    ∧ length arr' = length arr
    ∧ ∀ j : nat,
        arr' !! j = if bool_decide (Z.of_nat j < Tokens s)
                    then flip_word T <$> arr !! j else arr !! j.
Proof.
  intros Hwf. pose proof (wf_Tokens_range _ _ Hwf) as Ht.
  destruct (wf_TokenArray _ _ Hwf) as (arr & Harr & Hlen & _).
  destruct (Complement_loop T (Z.to_nat (Tokens s)) 0 arr) as (arr' & Hloop & Hlen' & Hlk);
    [done|lia|].
  exists arr, arr'. split; [done|]. split.
  { unfold Complement. rewrite Harr. cbn [mbind option_bind]. by rewrite Hloop. }
  split; [done|]. intros j. rewrite Hlk.
  repeat case_bool_decide; (done || lia).
Qed.

Lemma Complement_wf T s s' : wf T s → Complement T s = Some s' → wf T s'.
Proof.
  intros Hwf H. destruct (Complement_Some T s Hwf) as (arr & arr' & Harr & Hc & Hlen & Hlk).
  assert (s' = with_TokenArray s (Some arr')) as -> by congruence.
  destruct Hwf as [Hmax Htok (arr0 & Harr0 & Hlen0 & Hw)].
  assert (arr0 = arr) as -> by congruence.
  split; [done|done|]. exists arr'. split; [done|]. split; [simpl; lia|].
  apply Forall_lookup. intros j w Hj. rewrite Hlk in Hj.
  case_bool_decide.
  - apply fmap_Some in Hj as (w0 & _ & ->). apply wrap_t_is_word.
  - by eapply (Forall_lookup_1 _ arr).
Qed.

(** Two calls in a row give back the object as it was. *)
Lemma Complement_Complement T s :
  wf T s → (Complement T s ≫= Complement T) = Some s.
Proof.
  intros Hwf. destruct (Complement_Some T s Hwf) as (arr & arr1 & Harr & Hc1 & Hlen1 & Hlk1).
  assert (wf T (with_TokenArray s (Some arr1))) as Hwf1 by by eapply Complement_wf.
  destruct (Complement_Some T _ Hwf1) as (arr1' & arr2 & Harr1 & Hc2 & Hlen2 & Hlk2).
  simpl in Harr1. assert (arr1' = arr1) as -> by congruence.
  rewrite Hc1. cbn [mbind option_bind]. rewrite Hc2. f_equal.
  assert (arr2 = arr) as ->.
  { apply list_eq. intros j. rewrite Hlk2, Hlk1. simpl.
    case_bool_decide; [|done].
    destruct (arr !! j) as [w|] eqn:Hw; [|done]. simpl.
    rewrite flip_word_involutive; [done|].
    destruct (wf_TokenArray _ _ Hwf) as (arr0 & Harr0 & _ & Hws).
    assert (arr0 = arr) as -> by congruence. by eapply (Forall_lookup_1 _ arr). }
  destruct s; simpl in *. by subst.
Qed.

(** One call flips the membership of every valid element. *)
Lemma Contains_Complement ND T s s' e :
  wf T s → 0 ≤ e < MaxElements s → Complement T s = Some s' →
  Contains ND T s' e = negb <$> Contains ND T s e.
Proof.
  intros Hwf He H. destruct (Complement_Some T s Hwf) as (arr & arr' & Harr & Hc & Hlen & Hlk).
  assert (s' = with_TokenArray s (Some arr')) as -> by congruence.
  pose proof (valid_token_lt T s e arr Hwf Harr He) as Htok.
  pose proof (bits_range T) as Hb.
  rewrite !Contains_unfold, asserts_hold_with_TokenArray.
  destruct (asserts_hold ND T s e); [|done].
  unfold read_bit. rewrite ElementsPerToken_bits, Harr. simpl.
  rewrite !index_lookup, Hlk by lia.
  rewrite bool_decide_eq_true_2.
  2:{ destruct Hwf as [_ Hwc _]. red in Hwc.
      pose proof (div_lt_ceil_div e (MaxElements s) (bits T)). lia. }
  destruct (arr !! Z.to_nat (e / bits T)) as [w|]; [|done]. simpl.
  unfold BU.TestBit. rewrite testbit_flip_word; [done|]. apply Z.mod_pos_bound. lia.
Qed.

(** C4.  For every set and every valid element [e], calling [Complement()]
    twice in succession restores the original membership: both calls return,
    and [Contains(e)] after them gives what [Contains(e)] gives before them
    (it returns under the condition stated for [Add] in C6). *)
Theorem Complement_twice_Contains ND T s e :
  wf T s → 0 ≤ e < MaxElements s →
  ∃ s1 s2,
    Complement T s = Some s1 ∧ Complement T s1 = Some s2
    ∧ agree ND T s (Contains ND T s2 e) (Contains ND T s e).
Proof.
  intros Hwf He.
  pose proof (Complement_Complement T s Hwf) as Hcc.
  destruct (Complement T s) as [s1|] eqn:Hc1; [|done]. simpl in Hcc.
  exists s1, s. split; [done|]. split; [done|]. split; [done|].
  intros Hex. by apply Contains_is_Some.
Qed.

(** ** [UnionWith] and [IntersectWith] *)

Lemma UnionWith_combine ND this c : UnionWith ND this c = combine_with ND Z.lor this c.
Proof. reflexivity. Qed.

Lemma IntersectWith_combine ND this c : IntersectWith ND this c = combine_with ND Z.land this c.
Proof. reflexivity. Qed.

Lemma bitwise_lor : bitwise Z.lor orb.
Proof. intros x y j _. apply Z.lor_spec. Qed.

Lemma bitwise_land : bitwise Z.land andb.
Proof. intros x y j _. apply Z.land_spec. Qed.

Lemma bitwise_is_word T f fb x y :
  bitwise f fb → fb false false = false → is_word T x → is_word T y → is_word T (f x y).
Proof.
  intros Hf Hff Hx Hy. pose proof (bits_range T).
  assert (f x y = f x y mod 2 ^ bits T) as ->; [|apply (wrap_t_is_word T)].
  apply Z.bits_inj'. intros j Hj. destruct (decide (j < bits T)).
  - by rewrite Z.mod_pow2_bits_low by lia.
  - rewrite Z.mod_pow2_bits_high by lia.
    rewrite Hf by done.
    by rewrite (testbit_word_high T x), (testbit_word_high T y) by (done || lia).
Qed.

Lemma vector_op_lookup f dst a b count r (j : nat) :
  vector_op f dst a b count = Some r →
  length r = length dst ∧
  r !! j = if bool_decide (Z.of_nat j < count)
           then x ← a !! j; y ← b !! j; Some (f x y) else dst !! j.
Proof.
  unfold vector_op. case_bool_decide as Hc; [|done]. intros [= <-].
  assert (length (zip_with f (take (Z.to_nat count) a) (take (Z.to_nat count) b))
          = Z.to_nat count) as Hlen.
  { rewrite length_zip_with, !length_take. lia. }
  split.
  - rewrite length_app, Hlen, length_drop. lia.
  - case_bool_decide.
    + rewrite lookup_app_l by lia.
      rewrite lookup_zip_with, !lookup_take_lt by lia. done.
    + rewrite lookup_app_r by lia. rewrite Hlen, lookup_drop. f_equal. lia.
Qed.

Section combine.

Variables (ND : bool) (T : uint_t) (f : Z → Z → Z) (fb : bool → bool → bool).
Hypothesis f_bitwise : bitwise f fb.
Hypothesis fb_false : fb false false = false.

(** The call returns on word-compatible operands; it leaves the attributes
    alone and combines the bits of every valid element. *)
Lemma combine_with_Some a b :
  wf T a → wf T b → Tokens b = Tokens a →
  ∃ ab,
    combine_with ND f a b = Some ab
    ∧ wf T ab
    ∧ Tokens ab = Tokens a ∧ MaxElements ab = MaxElements a
    ∧ LastTokenMask ab = LastTokenMask a
    ∧ ∀ e, 0 ≤ e < MaxElements a →
        read_bit T ab e = x ← read_bit T a e; y ← read_bit T b e; Some (fb x y).
Proof.
  intros Hwa Hwb Htok. pose proof (wf_Tokens_range _ _ Hwa) as Ht.
  destruct (wf_TokenArray _ _ Hwa) as (arr_a & Ha & Hla & Hawords).
  destruct (wf_TokenArray _ _ Hwb) as (arr_b & Hb & Hlb & Hbwords).
  destruct (vector_op f arr_a arr_a arr_b (Tokens a)) as [r|] eqn:Hr.
  2:{ unfold vector_op in Hr. rewrite bool_decide_eq_true_2 in Hr by lia. done. }
  exists (with_TokenArray a (Some r)). split.
  { unfold combine_with, assert. rewrite Htok, Z.eqb_refl, Ha, Hb. simpl.
    rewrite Hr. by destruct ND. }
  split.
  { split; [apply Hwa|apply Hwa|]. exists r. split; [done|]. split.
    - destruct (vector_op_lookup _ _ _ _ _ _ 0%nat Hr) as [-> _]. simpl. lia.
    - apply Forall_lookup. intros j w Hj.
      destruct (vector_op_lookup _ _ _ _ _ _ j Hr) as [_ Hlk]. rewrite Hj in Hlk.
      case_bool_decide.
      + destruct (arr_a !! j) as [x|] eqn:Hx; [|done].
        destruct (arr_b !! j) as [y|] eqn:Hy; [|done]. simpl in Hlk.
        injection Hlk as ->. eapply bitwise_is_word; [done..| |].
        * by eapply (Forall_lookup_1 _ arr_a).
        * by eapply (Forall_lookup_1 _ arr_b).
      + by eapply (Forall_lookup_1 _ arr_a). }
  do 3 (split; [done|]).
  intros e He. pose proof (bits_range T) as Hbits.
  pose proof (valid_token_lt T a e arr_a Hwa Ha He) as Hlt.
  assert (e / bits T < Tokens a) as Hin.
  { destruct Hwa as [_ Hwc _]. red in Hwc.
    pose proof (div_lt_ceil_div e (MaxElements a) (bits T)). lia. }
  unfold read_bit. rewrite ElementsPerToken_bits, Ha, Hb. simpl.
  rewrite !index_lookup by lia.
  destruct (vector_op_lookup _ _ _ _ _ _ (Z.to_nat (e / bits T)) Hr) as [_ ->].
  rewrite bool_decide_eq_true_2 by lia.
  destruct (arr_a !! _) as [x|]; [|done]. simpl.
  destruct (arr_b !! _) as [y|]; [|done]. simpl.
  unfold BU.TestBit. rewrite f_bitwise; [done|]. apply Z.mod_pos_bound. lia.
Qed.

Lemma combine_with_self a :
  wf T a → (∀ x, f x x = x) → combine_with ND f a a = Some a.
Proof.
  intros Hwa Hidem. pose proof (wf_Tokens_range _ _ Hwa) as Ht.
  destruct (wf_TokenArray _ _ Hwa) as (arr & Ha & Hla & _).
  unfold combine_with, assert, vector_op. rewrite Z.eqb_refl, Ha. simpl.
  rewrite bool_decide_eq_true_2 by lia.
  replace (zip_with f (take (Z.to_nat (Tokens a)) arr) (take (Z.to_nat (Tokens a)) arr))
    with (take (Z.to_nat (Tokens a)) arr).
  2:{ generalize (take (Z.to_nat (Tokens a)) arr). intros l.
      induction l as [|x l IH]; simpl; [done|]. by rewrite Hidem, <-IH. }
  rewrite take_drop. destruct ND; simpl; destruct a; simpl in *; by subst.
Qed.

End combine.

Lemma asserts_hold_eq ND T s s' e :
  Tokens s = Tokens s' → MaxElements s = MaxElements s' →
  asserts_hold ND T s e = asserts_hold ND T s' e.
Proof. unfold asserts_hold. by intros -> ->. Qed.

Section combine_algebra.

Variables (ND : bool) (T : uint_t) (f : Z → Z → Z) (fb : bool → bool → bool).
Hypothesis f_bitwise : bitwise f fb.
Hypothesis fb_false : fb false false = false.
Hypothesis fb_comm : ∀ x y, fb x y = fb y x.
Hypothesis fb_assoc : ∀ x y z, fb (fb x y) z = fb x (fb y z).

Lemma combine_with_comm a b e :
  wf T a → wf T b → compatible a b → 0 ≤ e < MaxElements a →
  is_Some (combine_with ND f a b) ∧
  agree ND T a
    (combine_with ND f a b ≫= λ s, Contains ND T s e)
    (combine_with ND f b a ≫= λ s, Contains ND T s e).
Proof.
  intros Hwa Hwb (Htok & Hmax & _) He.
  destruct (combine_with_Some ND T f fb f_bitwise fb_false a b)
    as (ab & Hcab & Hwab & Htab & Hmab & _ & Hab); [done|done|done|].
  destruct (combine_with_Some ND T f fb f_bitwise fb_false b a)
    as (ba & Hcba & _ & Htba & Hmba & _ & Hba); [done|done|done|].
  rewrite Hcab, Hcba. split; [eauto|]. cbn [mbind option_bind]. split.
  - rewrite !Contains_unfold.
    rewrite (asserts_hold_eq ND T ab ba) by congruence.
    destruct (asserts_hold ND T ba e); [|done].
    rewrite Hab by lia. rewrite Hba by lia.
    destruct (read_bit T a e), (read_bit T b e); cbn [mbind option_bind];
      first [done|by rewrite fb_comm].
  - intros Hex. apply Contains_is_Some; [done|lia|].
    unfold assert_exact in *. by rewrite Hmab.
Qed.

Lemma combine_with_assoc a b c e :
  wf T a → wf T b → wf T c → compatible a b → compatible b c → 0 ≤ e < MaxElements a →
  is_Some (combine_with ND f a b ≫= λ s, combine_with ND f s c) ∧
  is_Some (combine_with ND f b c ≫= λ s, combine_with ND f a s) ∧
  agree ND T a
    ((combine_with ND f a b ≫= λ s, combine_with ND f s c) ≫= λ s, Contains ND T s e)
    ((combine_with ND f b c ≫= λ s, combine_with ND f a s) ≫= λ s, Contains ND T s e).
Proof.
  intros Hwa Hwb Hwc (Htab & Hmab & _) (Htbc & Hmbc & _) He.
  destruct (combine_with_Some ND T f fb f_bitwise fb_false a b)
    as (ab & Hcab & Hwab & Htab' & Hmab' & _ & Hab); [done|done|done|].
  destruct (combine_with_Some ND T f fb f_bitwise fb_false b c)
    as (bc & Hcbc & Hwbc & Htbc' & Hmbc' & _ & Hbc); [done|done|done|].
  destruct (combine_with_Some ND T f fb f_bitwise fb_false ab c)
    as (ab_c & Hc1 & Hw1 & Ht1 & Hm1 & _ & H1); [done|done|congruence|].
  destruct (combine_with_Some ND T f fb f_bitwise fb_false a bc)
    as (a_bc & Hc2 & _ & Ht2 & Hm2 & _ & H2); [done|done|congruence|].
  rewrite Hcab, Hcbc. cbn [mbind option_bind]. rewrite Hc1, Hc2.
  split; [eauto|]. split; [eauto|]. cbn [mbind option_bind]. split.
  - rewrite !Contains_unfold.
    rewrite (asserts_hold_eq ND T ab_c a_bc) by congruence.
    destruct (asserts_hold ND T a_bc e); [|done].
    rewrite H1 by lia. rewrite H2 by lia. rewrite Hab by lia. rewrite Hbc by lia.
    destruct (read_bit T a e), (read_bit T b e), (read_bit T c e);
      cbn [mbind option_bind]; first [done|by rewrite fb_assoc].
  - intros Hex. apply Contains_is_Some; [done|lia|].
    unfold assert_exact in *. rewrite Hm1, Hmab'. done.
Qed.

End combine_algebra.

(** C5.  For universe-compatible sets, [UnionWith] is commutative and
    associative on the membership of every valid element, and [A.UnionWith(A)]
    leaves [A] unchanged; the same three properties hold for
    [IntersectWith].  The calls of [UnionWith] and [IntersectWith] all return;
    [Contains] gives the same result on both sides, and returns under the
    condition stated for [Add] in C6. *)
Theorem UnionWith_IntersectWith_algebra ND T a b c e :
  wf T a → wf T b → wf T c → compatible a b → compatible b c →
  0 ≤ e < MaxElements a →
  (is_Some (UnionWith ND a b) ∧
   agree ND T a
     (UnionWith ND a b ≫= λ s, Contains ND T s e)
     (UnionWith ND b a ≫= λ s, Contains ND T s e)) ∧
  (is_Some (UnionWith ND a b ≫= λ s, UnionWith ND s c) ∧
   is_Some (UnionWith ND b c ≫= λ s, UnionWith ND a s) ∧
   agree ND T a
     ((UnionWith ND a b ≫= λ s, UnionWith ND s c) ≫= λ s, Contains ND T s e)
     ((UnionWith ND b c ≫= λ s, UnionWith ND a s) ≫= λ s, Contains ND T s e)) ∧
  UnionWith ND a a = Some a ∧
  (is_Some (IntersectWith ND a b) ∧
   agree ND T a
     (IntersectWith ND a b ≫= λ s, Contains ND T s e)
     (IntersectWith ND b a ≫= λ s, Contains ND T s e)) ∧
  (is_Some (IntersectWith ND a b ≫= λ s, IntersectWith ND s c) ∧
   is_Some (IntersectWith ND b c ≫= λ s, IntersectWith ND a s) ∧
   agree ND T a
     ((IntersectWith ND a b ≫= λ s, IntersectWith ND s c) ≫= λ s, Contains ND T s e)
     ((IntersectWith ND b c ≫= λ s, IntersectWith ND a s) ≫= λ s, Contains ND T s e)) ∧
  IntersectWith ND a a = Some a.
Proof.
  intros Hwa Hwb Hwc Hab Hbc He.
  split; [|split; [|split; [|split; [|split]]]].
  - apply (combine_with_comm ND T Z.lor orb bitwise_lor eq_refl orb_comm); done.
  - apply (combine_with_assoc ND T Z.lor orb bitwise_lor eq_refl);
      [intros; symmetry; apply orb_assoc|done..].
  - apply (combine_with_self ND T); [done|apply Z.lor_diag].
  - apply (combine_with_comm ND T Z.land andb bitwise_land eq_refl andb_comm); done.
  - apply (combine_with_assoc ND T Z.land andb bitwise_land eq_refl);
      [intros; symmetry; apply andb_assoc|done..].
  - apply (combine_with_self ND T); [done|apply Z.land_diag].
Qed.

(** ** [CopyFrom] and copy assignment *)

Lemma attributes_with_TokenArray s p : attributes (with_TokenArray s p) = attributes s.
Proof. reflexivity. Qed.

Lemma CopyFrom_attributes ND this c s' :
  CopyFrom ND this c = Some s' → attributes s' = attributes this.
Proof.
  unfold CopyFrom. intros H.
  repeat (match type of H with (?m ≫= _) = Some _ => destruct m; [cbn [mbind option_bind] in H|done] end).
  by injection H as <-.
Qed.

(** In a checked build [CopyFrom] returns for universe-compatible operands
    only. *)
Lemma CopyFrom_checked this c s' :
  CopyFrom false this c = Some s' → compatible c this.
Proof.
  unfold CopyFrom, assert, compatible. intros H.
  destruct (Z.eqb_spec (Tokens c) (Tokens this)); [|done].
  destruct (Z.eqb_spec (LastTokenMask c) (LastTokenMask this)); [|done].
  destruct (Z.eqb_spec (MaxElements c) (MaxElements this)); done.
Qed.

Lemma assign_attributes ND T indet this rh s' :
  assign ND T indet this rh = Some s' →
  attributes s' = if Tokens rh =? Tokens this then attributes this else attributes rh.
Proof.
  unfold assign. intros H%CopyFrom_attributes. rewrite H.
  by destruct (Tokens rh =? Tokens this).
Qed.

(** C3, for two universes of the same word count.  With [uint32_t] words the
    universes of 40 and of 33 elements both take two words, so
    [operator=] skips its first branch and goes to [CopyFrom] with the
    destination's own [MaxElements] and [LastTokenMask].  A checked build stops
    at the assertions of [CopyFrom]; an unchecked build copies the bits and
    leaves the destination with universe size 40 and mask [0xFF] where the
    source has 33 and [0x1].  The claim has every attribute of the destination
    equal to the source's after assignment from any source. *)
Theorem assign_same_word_count indet :
  ∃ dst src,
    BitSet_new uint32_t indet 40 = Some dst
    ∧ BitSet_new uint32_t indet 33 = Some src
    ∧ Tokens dst = 2 ∧ Tokens src = 2
    ∧ assign false uint32_t indet dst src = None
    ∧ ∃ dst',
        assign true uint32_t indet dst src = Some dst'
        ∧ (MaxElements dst', LastTokenMask dst') = (40, 255)
        ∧ (MaxElements src, LastTokenMask src) = (33, 1).
Proof.
  do 2 eexists. rewrite !BitSet_new_Some by done.
  split; [reflexivity|]. split; [reflexivity|].
  split; [reflexivity|]. split; [reflexivity|].
  split; [reflexivity|].
  eexists. split; [reflexivity|]. split; reflexivity.
Qed.

(** ** The word count and the universe size *)

(** [ceil_div n b] is the least number of [b]-bit words that hold [n] bits. *)
Lemma ceil_div_least n b :
  0 < b → 0 ≤ n → n ≤ ceil_div n b * b ∧ (ceil_div n b - 1) * b < n.
Proof.
  intros Hb Hn. unfold ceil_div.
  pose proof (Z.div_mod (n + b - 1) b). pose proof (Z.mod_pos_bound (n + b - 1) b Hb). lia.
Qed.

Lemma word_count_ok_attributes T s s' :
  attributes s' = attributes s → word_count_ok T s → word_count_ok T s'.
Proof. unfold attributes, word_count_ok. intros [= -> -> _]. done. Qed.

Lemma call_attributes ND TE T indet m s s' :
  call ND TE T indet m s = Some s' →
  attributes s' = attributes s
  ∨ ∃ rh, m = m_assign rh ∧ attributes s' = attributes rh.
Proof.
  destruct m; cbn [call]; intros H.
  - left. unfold Clear in H.
    destruct (TokenArray s); [cbn [mbind option_bind] in H|done].
    destruct (BU.ClearAllBits _ _); [|done]. by injection H as <-.
  - left. by eapply CopyFrom_attributes.
  - apply assign_attributes in H. destruct (Tokens rh =? Tokens s); eauto.
  - left. destruct (Contains ND T s element); [|done]. by injection H as <-.
  - left. rewrite Add_unfold in H. destruct (asserts_hold ND T s element); [|done].
    by apply write_bit_Some in H as (? & ? & ? & _ & _ & _ & ->).
  - left. rewrite Remove_unfold in H. destruct (asserts_hold ND T s element); [|done].
    by apply write_bit_Some in H as (? & ? & ? & _ & _ & _ & ->).
  - left. destruct (IsEmpty s); [|done]. by injection H as <-.
  - left. by injection H as <-.
  - left. rewrite UnionWith_combine in H. unfold combine_with in H.
    repeat (match type of H with (?m ≫= _) = Some _ =>
              destruct m; [cbn [mbind option_bind] in H|done] end).
    by injection H as <-.
  - left. rewrite IntersectWith_combine in H. unfold combine_with in H.
    repeat (match type of H with (?m ≫= _) = Some _ =>
              destruct m; [cbn [mbind option_bind] in H|done] end).
    by injection H as <-.
  - left. unfold Complement in H.
    repeat (match type of H with (?m ≫= _) = Some _ =>
              destruct m; [cbn [mbind option_bind] in H|done] end).
    by injection H as <-.
  - left. apply fmap_Some in H as ([s0 st'] & H & ->).
    apply ForEachMember_Some_this in H. simpl. by subst.
Qed.

(** C9.  For every instance, [wordCount] equals
    [ceil(universeSize / bitsPerWord)] at construction, and this relation
    between [wordCount] and [universeSize] is maintained by every operation:
    the copy and move constructors hand it on, and every member function
    called on an object that has it, with operands that have it, leaves the
    object with it. *)
Theorem word_count_maintained ND TE T indet :
  (∀ n, 0 ≤ n < 2 ^ 32 →
     ∃ s, BitSet_new T indet n = Some s ∧ MaxElements s = n ∧ word_count_ok T s) ∧
  (∀ c s, word_count_ok T c → BitSet_copy ND T indet c = Some s → word_count_ok T s) ∧
  (∀ rhs, word_count_ok T rhs →
     word_count_ok T (BitSet_move rhs).1 ∧ word_count_ok T (BitSet_move rhs).2) ∧
  (∀ m s s', word_count_ok T s → operand_ok T m →
     call ND TE T indet m s = Some s' → word_count_ok T s').
Proof.
  split; [|split; [|split]].
  - intros n Hn. eexists. rewrite BitSet_new_Some by done.
    split; [done|]. split; reflexivity.
  - intros c s Hc H. unfold BitSet_copy in H. apply CopyFrom_attributes in H.
    by eapply word_count_ok_attributes.
  - intros rhs Hr. split; exact Hr.
  - intros m s s' Hs Hm H.
    apply call_attributes in H as [H|(rh & -> & H)].
    + by eapply word_count_ok_attributes.
    + eapply word_count_ok_attributes; [done|]. exact Hm.
Qed.

(** ** Enumeration against its specification *)

Lemma filter_none {A} (P : A → Prop) `{!∀ x, Decision (P x)} (l : list A) :
  (∀ x, x ∈ l → ¬ P x) → filter P l = [].
Proof.
  induction l as [|x l IH]; intros Hl; [done|].
  rewrite filter_cons_False by (apply Hl; left).
  apply IH. intros y Hy. apply Hl. by right.
Qed.

Lemma filter_ext_elem {A} (P Q : A → Prop) `{!∀ x, Decision (P x), !∀ x, Decision (Q x)}
    (l : list A) :
  (∀ x, x ∈ l → P x ↔ Q x) → filter P l = filter Q l.
Proof.
  induction l as [|x l IH]; intros Hl; [done|].
  rewrite !filter_cons.
  rewrite IH by (intros y Hy; apply Hl; by right).
  destruct (decide (P x)) as [HP|HP], (decide (Q x)) as [HQ|HQ]; try done.
  - destruct HQ. apply Hl; [left|done].
  - destruct HP. apply Hl; [left|done].
Qed.

Lemma set_bits_none T w lo :
  (∀ j, lo ≤ j < bits T → Z.testbit w j = false) → set_bits T w lo = [].
Proof.
  intros Hz. apply filter_none. intros j [Hj1 Hj2]%elem_of_seqZ.
  rewrite Hz by lia. done.
Qed.

Lemma set_bits_first T w lo idx :
  lo ≤ idx < bits T → Z.testbit w idx = true →
  (∀ j, lo ≤ j < idx → Z.testbit w j = false) →
  set_bits T w lo = idx :: set_bits T w (idx + 1).
Proof.
  intros Hr Hset Hlow. unfold set_bits.
  replace (bits T - lo) with ((idx - lo) + (bits T - idx)) by lia.
  rewrite seqZ_app by lia. rewrite filter_app.
  rewrite (filter_none _ (seqZ lo (idx - lo))).
  2:{ intros j [Hj1 Hj2]%elem_of_seqZ. rewrite Hlow by lia. done. }
  replace (lo + (idx - lo)) with idx by lia.
  rewrite (seqZ_cons idx) by lia. rewrite filter_cons_True by done.
  simpl. do 3 f_equal; lia.
Qed.

Lemma set_bits_ext T w w' lo :
  (∀ j, lo ≤ j < bits T → Z.testbit w j = Z.testbit w' j) →
  set_bits T w lo = set_bits T w' lo.
Proof.
  intros Hw. apply filter_ext_elem. intros j [Hj1 Hj2]%elem_of_seqZ.
  rewrite Hw by lia. done.
Qed.

Section scan_token_visit.

Context {St : Type}.
Variables (TE T : uint_t) (cb : Z → St → bool * St).

(** The [while] loop shows the visitor the set bits of [token], lowest
    first, each as the element it stands for, until the visitor stops it. *)
Lemma scan_token_visit fuel offset token st lo :
  0 ≤ lo → bits T - lo ≤ Z.of_nat fuel →
  (∀ j, 0 ≤ j < lo → Z.testbit token j = false) →
  scan_token TE T cb fuel offset token st
  = Some (visit cb (as_element TE offset <$> set_bits T token lo) st).
Proof.
  revert token st lo. induction fuel as [|fuel IH]; intros token st lo Hlo Hfuel Hlow.
  - simpl. destruct (BU.BitScanForward T token) as [idx|] eqn:Hbsf.
    + apply BitScanForward_Some in Hbsf as (Hr & Hset & _).
      rewrite Hlow in Hset by lia. done.
    + rewrite BitScanForward_None in Hbsf.
      rewrite set_bits_none by (intros j Hj; apply Hbsf; lia). done.
  - simpl. destruct (BU.BitScanForward T token) as [idx|] eqn:Hbsf.
    + apply BitScanForward_Some in Hbsf as (Hr & Hset & Hmin).
      assert (lo ≤ idx) as Hle.
      { destruct (decide (lo ≤ idx)); [done|]. rewrite Hlow in Hset by lia. done. }
      rewrite (set_bits_first T token lo idx) by (done || lia || (intros; apply Hmin; lia)).
      cbn [fmap list_fmap visit]. unfold as_element at 1.
      destruct (cb _ st) as [[] st']; cbn [negb]; [|done].
      rewrite (IH _ _ (idx + 1)); [|lia|lia|].
      * do 3 f_equal. apply set_bits_ext. intros j Hj.
        pose proof (TestBit_ClearBit T token idx j) as Hc. unfold BU.TestBit in Hc.
        rewrite Hc by lia. rewrite bool_decide_eq_false_2 by lia. done.
      * intros j Hj.
        pose proof (TestBit_ClearBit T token idx j) as Hc. unfold BU.TestBit in Hc.
        rewrite Hc by lia. case_bool_decide; [done|]. simpl. apply Hmin. lia.
    + rewrite BitScanForward_None in Hbsf.
      rewrite set_bits_none by (intros j Hj; apply Hbsf; lia). done.
Qed.

(** One turn of the [for] loop: word [i], masked when it is the last one. *)
Lemma ForEachMember_body_visit i this offset st arr w :
  TokenArray this = Some arr → index arr i = Some w →
  ForEachMember_body TE T cb i (this, offset, st)
  = Some (let token := if i =? wrap_unsigned (Tokens this - 1)
                       then Z.land w (LastTokenMask this) else w in
          match visit cb (as_element TE offset <$> set_bits T token 0) st with
          | (true, st') => inl (this, wrap_int (offset + bits T), st')
          | (false, st') => inr (this, st')
          end).
Proof.
  intros Harr Hw. unfold ForEachMember_body. rewrite Harr. cbn [mbind option_bind].
  rewrite Hw. cbn [mbind option_bind]. rewrite ElementsPerToken_bits.
  pose proof (bits_range T).
  rewrite (scan_token_visit _ _ _ _ 0) by lia. cbn [mbind option_bind].
  by destruct (visit _ _ _) as [[] st'].
Qed.

End scan_token_visit.

Lemma filter_fmap {A B} (f : A → B) (P : B → Prop) `{!∀ y, Decision (P y)} (l : list A) :
  filter P (f <$> l) = f <$> filter (λ x, P (f x)) l.
Proof.
  induction l as [|x l IH]; [done|].
  rewrite fmap_cons, !filter_cons, IH. by destruct (decide (P (f x))).
Qed.

Lemma visit_app {St} (cb : Z → St → bool * St) l1 l2 st :
  visit cb (l1 ++ l2) st
  = match visit cb l1 st with
    | (true, st') => visit cb l2 st'
    | (false, st') => (false, st')
    end.
Proof.
  revert st. induction l1 as [|e l1 IH]; intros st; simpl; [done|].
  destruct (cb e st) as [[] st']; simpl; [apply IH|done].
Qed.

Lemma wrap_int_small x : - 2 ^ 31 ≤ x < 2 ^ 31 → wrap_int x = x.
Proof. intros Hx. unfold wrap_int. rewrite Z.mod_small by lia. lia. Qed.

Lemma wrap_int_add_l x y : wrap_int (wrap_int x + y) = wrap_int (x + y).
Proof.
  unfold wrap_int. f_equal.
  replace (x + y + 2 ^ 31) with ((x + 2 ^ 31) + y) by lia.
  replace ((x + 2 ^ 31) mod 2 ^ 32 - 2 ^ 31 + y + 2 ^ 31)
    with ((x + 2 ^ 31) mod 2 ^ 32 + y) by lia.
  by rewrite Zplus_mod_idemp_l.
Qed.

Lemma as_element_small TE offset idx :
  0 ≤ idx + offset < 2 ^ 31 → idx + offset < 2 ^ bits TE →
  as_element TE offset idx = idx + offset.
Proof.
  intros H1 H2. unfold as_element, wrap_t, wrap_ulong, wrap.
  rewrite (Z.mod_small _ (2 ^ 64)) by lia. apply Z.mod_small. lia.
Qed.

Section ForEachMember_members.

Context {St : Type}.
Variables (TE T : uint_t) (cb : Z → St → bool * St) (s : BitSet).
Hypothesis s_wf : wf T s.
Hypothesis s_mask : LastTokenMask s = Z.ones (MaxElements s mod bits T).
Hypothesis s_tail : MaxElements s mod bits T ≠ 0.
Hypothesis s_int : MaxElements s ≤ 2 ^ 31.
Hypothesis s_TElement : MaxElements s ≤ 2 ^ bits TE.

Lemma last_word_index : Tokens s - 1 = MaxElements s / bits T.
Proof.
  destruct s_wf as [Hmax Htok _]. red in Htok. rewrite Htok. unfold ceil_div.
  pose proof (bits_range T) as Hb.
  pose proof (Z.div_mod (MaxElements s) (bits T)).
  pose proof (Z.mod_pos_bound (MaxElements s) (bits T)).
  assert ((MaxElements s + bits T - 1) / bits T = MaxElements s / bits T + 1); [|lia].
  symmetry. apply (Z.div_unique _ _ _ (MaxElements s mod bits T - 1)); lia.
Qed.

(** The bits the [while] loop sees in word [i] are the elements of that word
    that are present. *)
Lemma word_elements i arr w :
  TokenArray s = Some arr → 0 ≤ i < Tokens s → arr !! Z.to_nat i = Some w →
  as_element TE (wrap_int (i * bits T))
    <$> set_bits T (if i =? wrap_unsigned (Tokens s - 1)
                    then Z.land w (LastTokenMask s) else w) 0
  = filter (present T s) (seqZ (i * bits T) (bits T)).
Proof.
  intros Harr Hi Hw. pose proof (bits_range T) as Hb.
  pose proof (wf_Tokens_range _ _ s_wf) as Ht.
  pose proof last_word_index as Hlast.
  pose proof (Z.div_mod (MaxElements s) (bits T)) as Hdm.
  pose proof (Z.mod_pos_bound (MaxElements s) (bits T)) as Hmod.
  assert (i * bits T < MaxElements s) as Hbase by nia.
  assert (wrap_unsigned (Tokens s - 1) = Tokens s - 1) as ->
    by (unfold wrap_unsigned, wrap; apply Z.mod_small; lia).
  rewrite wrap_int_small by nia.
  replace (seqZ (i * bits T) (bits T)) with (Z.add (i * bits T) <$> seqZ 0 (bits T))
    by (rewrite fmap_add_seqZ; f_equal; lia).
  rewrite filter_fmap. unfold set_bits. rewrite Z.sub_0_r.
  assert (∀ j, 0 ≤ j < bits T →
    Z.testbit (if i =? Tokens s - 1 then Z.land w (LastTokenMask s) else w) j = true
    ↔ present T s (i * bits T + j)) as Hbit.
  { intros j Hj. unfold present, read_bit. rewrite ElementsPerToken_bits, Harr. simpl.
    assert ((i * bits T + j) / bits T = i) as ->
      by (symmetry; apply (Z.div_unique _ _ _ j); lia).
    assert ((i * bits T + j) mod bits T = j) as ->
      by (symmetry; apply (Z.mod_unique _ _ i); lia).
    rewrite index_lookup, Hw by lia. simpl. unfold BU.TestBit.
    destruct (Z.eqb_spec i (Tokens s - 1)) as [->|Hne].
    - rewrite s_mask, Z.land_spec, Z.testbit_ones_nonneg by lia.
      rewrite andb_true_iff, Z.ltb_lt. rewrite Hlast.
      split; intros [H1 H2]; (split; [|done]) || split; try done; try congruence; try nia.
    - split; [intros Hset; split; [nia|by f_equal]|intros [_ [= Hset]]; done]. }
  rewrite (filter_ext_elem _ (λ j, present T s (i * bits T + j)))
    by (intros j [Hj1 Hj2]%elem_of_seqZ; apply Hbit; lia).
  apply list_fmap_ext. intros k j Hk.
  apply list_elem_of_lookup_2, list_elem_of_filter in Hk as [[Hlt _] [Hj1 Hj2]%elem_of_seqZ].
  rewrite as_element_small by lia. lia.
Qed.

(** The [for] loop over the words [i, i + n). *)
Lemma ForEachMember_loop_visit n i st :
  0 ≤ i → i + Z.of_nat n ≤ Tokens s →
  for_loop_ret (ForEachMember_body TE T cb) i n (s, wrap_int (i * bits T), st)
  = Some match visit cb (filter (present T s) (seqZ (i * bits T) (Z.of_nat n * bits T))) st with
         | (true, st') => inl (s, wrap_int ((i + Z.of_nat n) * bits T), st')
         | (false, st') => inr (s, st')
         end.
Proof.
  pose proof (bits_range T) as Hb.
  destruct (wf_TokenArray _ _ s_wf) as (arr & Harr & Hlen & _).
  revert i st. induction n as [|n IH]; intros i st Hi Hn.
  - simpl. by rewrite Z.add_0_r.
  - cbn [for_loop_ret].
    destruct (lookup_lt_is_Some_2 arr (Z.to_nat i)) as [w Hw]; [lia|].
    rewrite (ForEachMember_body_visit TE T cb i s _ st arr w Harr)
      by (by rewrite index_lookup by lia).
    cbv zeta. rewrite (word_elements i arr w) by (done || lia).
    replace (Z.of_nat (S n) * bits T) with (bits T + Z.of_nat n * bits T) by lia.
    rewrite seqZ_app, filter_app, visit_app by nia.
    destruct (visit cb (filter (present T s) (seqZ (i * bits T) (bits T))) st) as [[] st1]; [|done].
    rewrite wrap_int_add_l.
    replace (i * bits T + bits T) with ((i + 1) * bits T) by lia.
    rewrite IH by lia.
    by replace (i + 1 + Z.of_nat n) with (i + Z.of_nat (S n)) by lia.
Qed.

Lemma present_members ND :
  filter (present T s) (seqZ 0 (Tokens s * bits T)) = members ND T s.
Proof.
  pose proof (bits_range T) as Hb. pose proof last_word_index as Hlast.
  pose proof (Z.div_mod (MaxElements s) (bits T)) as Hdm.
  pose proof (Z.mod_pos_bound (MaxElements s) (bits T)) as Hmod.
  destruct s_wf as [Hmax _ _].
  replace (Tokens s * bits T)
    with (MaxElements s + (Tokens s * bits T - MaxElements s)) by lia.
  rewrite seqZ_app, filter_app by nia.
  rewrite (filter_none _ (seqZ (0 + MaxElements s) _)).
  2:{ intros e [He _]%elem_of_seqZ [Hlt _]. lia. }
  rewrite app_nil_r. unfold members. apply filter_ext_elem.
  intros e [He1 He2]%elem_of_seqZ. unfold present.
  rewrite Contains_unfold, asserts_hold_valid; [|done|lia|right; lia].
  split; [by intros [_ ?]|]. intros ?. split; [lia|done].
Qed.

Lemma ForEachMember_members ND st :
  ForEachMember TE T cb s st = Some (s, (visit cb (members ND T s) st).2).
Proof.
  pose proof (wf_Tokens_range _ _ s_wf) as Ht.
  unfold ForEachMember.
  pose proof (ForEachMember_loop_visit (Z.to_nat (Tokens s)) 0 st) as Hloop.
  rewrite Z.mul_0_l in Hloop. change (wrap_int 0) with 0 in Hloop.
  rewrite Hloop by lia. cbn [mbind option_bind].
  rewrite Z2Nat.id by lia. rewrite (present_members ND).
  by destruct (visit cb (members ND T s) st) as [[] st'].
Qed.

End ForEachMember_members.

Lemma visit_recorder_all l seen : visit (recorder false) l seen = (true, seen ++ l).
Proof.
  revert seen. induction l as [|e l IH]; intros seen; simpl.
  - by rewrite app_nil_r.
  - rewrite IH. by rewrite <-app_assoc.
Qed.

Lemma visit_recorder_stop l seen :
  (visit (recorder true) l seen).2 = seen ++ take 1 l.
Proof. destruct l as [|e l]; simpl; [by rewrite app_nil_r|done]. Qed.

Lemma StronglySorted_seqZ m n : StronglySorted Z.lt (seqZ m n).
Proof.
  destruct (decide (n ≤ 0)) as [Hn|Hn]; [rewrite seqZ_nil by done; constructor|].
  rewrite <-(Z2Nat.id n) by lia. generalize (Z.to_nat n). clear n Hn. intros n.
  induction n as [|n IH]; [constructor|].
  rewrite seqZ_S. apply StronglySorted_app. split; [|split; [done|repeat constructor]].
  intros x y [Hx1 Hx2]%elem_of_seqZ ->%list_elem_of_singleton. lia.
Qed.

Lemma StronglySorted_filter {A} (R : relation A) (P : A → Prop) `{!∀ x, Decision (P x)} l :
  StronglySorted R l → StronglySorted R (filter P l).
Proof.
  induction 1 as [|x l Hl IH Hx]; [constructor|].
  rewrite filter_cons. destruct (decide (P x)); [|done].
  constructor; [done|]. apply Forall_forall. intros y [_ Hy]%list_elem_of_filter.
  by eapply (Forall_forall (R x) l).
Qed.

Lemma members_sorted ND T s : StronglySorted Z.lt (members ND T s).
Proof. apply StronglySorted_filter, StronglySorted_seqZ. Qed.

Lemma elem_of_members ND T s e :
  e ∈ members ND T s ↔ 0 ≤ e < MaxElements s ∧ Contains ND T s e = Some true.
Proof.
  unfold members. rewrite list_elem_of_filter, elem_of_seqZ. split; intros [? ?]; (split; [done || lia|done || lia]).
Qed.

(** Enumeration where the universe size is not a multiple of the word width
    (and fits [int] and [TElement]): whatever the visitor, [ForEachMember]
    shows it the members in strictly ascending order, each once, up to the
    first one it stops at, and returns the object unchanged.  A visitor that
    records and never stops ends with the list of members; one that stops at
    its first call ends with the smallest member alone. *)
Theorem ForEachMember_visits_members ND TE T s :
  wf T s →
  LastTokenMask s = Z.ones (MaxElements s mod bits T) →
  MaxElements s mod bits T ≠ 0 →
  MaxElements s ≤ 2 ^ 31 →
  MaxElements s ≤ 2 ^ bits TE →
  (∀ (St : Type) (cb : Z → St → bool * St) (st : St),
     ForEachMember TE T cb s st = Some (s, (visit cb (members ND T s) st).2)) ∧
  StronglySorted Z.lt (members ND T s) ∧
  (∀ e, e ∈ members ND T s ↔ 0 ≤ e < MaxElements s ∧ Contains ND T s e = Some true) ∧
  ForEachMember TE T (recorder false) s [] = Some (s, members ND T s) ∧
  ForEachMember TE T (recorder true) s [] = Some (s, take 1 (members ND T s)).
Proof.
  intros Hwf Hmask Htail Hint HTE.
  split; [intros St cb st; by apply ForEachMember_members|].
  split; [apply members_sorted|]. split; [apply elem_of_members|]. split.
  - rewrite (ForEachMember_members TE T _ s Hwf Hmask Htail Hint HTE ND).
    by rewrite visit_recorder_all.
  - rewrite (ForEachMember_members TE T _ s Hwf Hmask Htail Hint HTE ND).
    by rewrite visit_recorder_stop.
Qed.

(** C1, at a universe of two full words.  In [two_full_words]
    [LastTokenMask] is zero, and [ForEachMember] masks the last word with it:
    whatever the visitor, it is shown 0 and 31 and the call returns without
    showing it 32 and 63; a visitor that records and never stops ends with
    0 and 31.  The claim has every member visited, at every universe size. *)
Theorem ForEachMember_full_last_word indet :
  (BitSet_new uint32_t indet 64 ≫= λ s, Add false uint32_t s 0
     ≫= λ s, Add false uint32_t s 31 ≫= λ s, Add false uint32_t s 32
     ≫= λ s, Add false uint32_t s 63) = Some (two_full_words indet)
  ∧ members false uint32_t (two_full_words indet) = [0; 31; 32; 63]
  ∧ (∀ (TE : uint_t) (St : Type) (cb : Z → St → bool * St) (st : St),
       ForEachMember TE uint32_t cb (two_full_words indet) st
       = Some (two_full_words indet, (visit cb [0; 31] st).2))
  ∧ ForEachMember uint32_t uint32_t (recorder false) (two_full_words indet) []
    = Some (two_full_words indet, [0; 31]).
Proof.
  assert (∀ (TE : uint_t) (St : Type) (cb : Z → St → bool * St) (st : St),
    ForEachMember TE uint32_t cb (two_full_words indet) st
    = Some (two_full_words indet, (visit cb [0; 31] st).2)) as Hall.
  { intros TE St cb st.
    assert (as_element TE 0 <$> set_bits uint32_t 2147483649 0 = [0; 31]) as Hw0
      by (by destruct TE).
    assert (set_bits uint32_t (Z.land 2147483649 0) 0 = []) as Hw1 by done.
    assert (∀ s junk,
      TokenArray s = Some (2147483649 :: 2147483649 :: junk) →
      LastTokenMask s = 0 → Tokens s = 2 →
      ForEachMember TE uint32_t cb s st = Some (s, (visit cb [0; 31] st).2)) as Haux;
      [|by apply (Haux _ (drop 2 (fresh_block uint32_t indet 2)))].
    intros s junk Ha Hm Ht. unfold ForEachMember. rewrite Ht.
    change (Z.to_nat 2) with 2%nat. cbn [for_loop_ret].
    rewrite (ForEachMember_body_visit TE uint32_t cb 0 s _ _ _ 2147483649 Ha eq_refl).
    rewrite Ht, Hm. change (0 =? wrap_unsigned (2 - 1)) with false. cbv zeta iota.
    rewrite Hw0. destruct (visit cb [0; 31] st) as [[] st']; [|done].
    rewrite (ForEachMember_body_visit TE uint32_t cb 1 s _ _ _ 2147483649 Ha eq_refl).
    rewrite Ht, Hm. change (1 =? wrap_unsigned (2 - 1)) with true. cbv zeta iota.
    rewrite Hw1. done. }
  split; [rewrite BitSet_new_Some by done; reflexivity|]. split; [reflexivity|].
  split; [exact Hall|]. by rewrite Hall.
Qed.

(** ** Copy assignment where it duplicates *)

Lemma length_realloc T indet p r :
  0 ≤ r < 2 ^ 32 →
  ∃ arr, realloc T indet p (ReqSize T r) = Some arr
         ∧ length arr = Z.to_nat (Z.max r 16) ∧ (Forall (is_word T) (default [] p) → Forall (is_word T) arr).
Proof.
  intros Hr. unfold realloc. rewrite ReqSize_words by done.
  eexists. split; [done|]. split.
  - rewrite length_app, length_take, length_fmap, length_seq. lia.
  - intros Hold. apply Forall_app. split; [by apply Forall_take|].
    apply Forall_fmap, Forall_forall. intros i _. apply wrap_t_is_word.
Qed.

(** [CopyFrom] between objects with equal attributes: the first [Tokens]
    words of the source replace those of the destination. *)
Lemma CopyFrom_Some ND T this c dst src :
  attributes c = attributes this →
  TokenArray this = Some dst → TokenArray c = Some src →
  0 ≤ Tokens this ≤ Z.of_nat (length dst) → Tokens this ≤ Z.of_nat (length src) →
  CopyFrom ND this c
  = Some (with_TokenArray this
            (Some (take (Z.to_nat (Tokens this)) src ++ drop (Z.to_nat (Tokens this)) dst)))
  ∧ ∀ e, 0 ≤ e → e / bits T < Tokens this →
      read_bit T (with_TokenArray this
            (Some (take (Z.to_nat (Tokens this)) src ++ drop (Z.to_nat (Tokens this)) dst))) e
      = read_bit T c e.
Proof.
  intros [= Ht Hm Hl] Hdst Hsrc Hld Hls. split.
  - unfold CopyFrom, assert. rewrite Ht, Hm, Hl, !Z.eqb_refl, Hdst, Hsrc.
    assert (memcpy dst src (Tokens this)
            = Some (take (Z.to_nat (Tokens this)) src ++ drop (Z.to_nat (Tokens this)) dst))
      as Hcpy by (unfold memcpy; by rewrite bool_decide_eq_true_2 by lia).
    destruct ND; cbn [mbind option_bind]; by rewrite Hcpy.
  - intros e He Hlt. pose proof (bits_range T).
    assert (0 ≤ e / bits T) by (apply Z.div_pos; lia).
    unfold read_bit. rewrite ElementsPerToken_bits, Hsrc. simpl.
    rewrite !index_lookup by done.
    rewrite lookup_app_l by (rewrite length_take; lia).
    rewrite lookup_take_lt by lia. done.
Qed.

(** Copy assignment from a source of another word count, or from a
    universe-compatible source, returns and leaves the destination with the
    attributes of the source and with its membership. *)
Theorem assign_duplicates ND T indet this rh :
  wf T this → wf T rh → Tokens rh ≠ Tokens this ∨ compatible rh this →
  ∃ s', assign ND T indet this rh = Some s'
        ∧ attributes s' = attributes rh
        ∧ ∀ e, 0 ≤ e < MaxElements rh → Contains ND T s' e = Contains ND T rh e.
Proof.
  intros Hthis Hrh Hcase. pose proof (bits_range T) as Hb.
  pose proof (wf_Tokens_range _ _ Hrh) as Htr.
  pose proof (wf_Tokens_range _ _ Hthis) as Htt.
  destruct (wf_TokenArray _ _ Hrh) as (src & Hsrc & Hls & _).
  destruct (wf_TokenArray _ _ Hthis) as (dst & Hdst & Hld & _).
  assert (∀ e, 0 ≤ e < MaxElements rh → e / bits T < Tokens rh) as Hin.
  { intros e He. destruct Hrh as [_ Hwc _]. red in Hwc.
    pose proof (div_lt_ceil_div e (MaxElements rh) (bits T)). lia. }
  unfold assign. destruct (Z.eqb_spec (Tokens rh) (Tokens this)) as [Heq|Hne]; simpl.
  - destruct Hcase as [?|(Ht & Hm & Hl)]; [done|].
    assert (attributes rh = attributes this) as Hattr by (unfold attributes; congruence).
    destruct (CopyFrom_Some ND T this rh dst src Hattr Hdst Hsrc) as [-> Hread]; [lia..|].
    eexists. split; [done|]. split; [by rewrite attributes_with_TokenArray|].
    intros e He. rewrite !Contains_unfold.
    rewrite (asserts_hold_eq ND T _ rh) by (simpl; congruence).
    destruct (asserts_hold ND T rh e); [|done].
    apply Hread; [lia|]. rewrite <-Heq. by apply Hin.
  - destruct (length_realloc T indet (TokenArray this) (Tokens rh) Htr) as (blk & Hblk & Hlen & _).
    rewrite Hblk.
    edestruct (CopyFrom_Some ND T
      {| Tokens := Tokens rh; LastTokenMask := LastTokenMask rh;
         MaxElements := MaxElements rh; TokenArray := Some blk |} rh blk src)
      as [-> Hread]; [done|done|done|simpl; lia|simpl; lia|].
    eexists. split; [done|]. split; [done|].
    intros e He. rewrite !Contains_unfold.
    rewrite (asserts_hold_eq ND T _ rh) by done.
    destruct (asserts_hold ND T rh e); [|done].
    apply Hread; [lia|]. simpl. by apply Hin.
Qed.

(** ** The state of a live object *)

Lemma assert_bind_Some {A} ND b (k : unit → option A) x :
  (assert ND b ≫= k) = Some x → k tt = Some x.
Proof. unfold assert. by destruct ND, b. Qed.

Lemma live_attributes T s s' arr :
  attributes s' = attributes s → live T s →
  TokenArray s' = Some arr → Tokens s ≤ Z.of_nat (length arr) → Forall (is_word T) arr →
  live T s'.
Proof.
  unfold attributes. intros [= Ht Hm Hl] [[Hmax Hwc _] Hmask] Harr Hlen Hwords.
  split; [split|].
  - by rewrite Hm.
  - red. red in Hwc. by rewrite Ht, Hm.
  - exists arr. by rewrite Ht.
  - by rewrite Hl, Hm.
Qed.

Lemma CopyFrom_live ND T this c s' :
  live T this → wf T c → CopyFrom ND this c = Some s' → live T s'.
Proof.
  intros Hthis Hc H. pose proof (CopyFrom_attributes _ _ _ _ H) as Hattr.
  destruct (wf_TokenArray _ _ (proj1 Hthis)) as (dst & Hdst & Hld & Hwd).
  destruct (wf_TokenArray _ _ Hc) as (src & Hsrc & _ & Hws).
  unfold CopyFrom in H. rewrite Hdst, Hsrc in H.
  do 3 apply assert_bind_Some in H.
  cbn [mbind option_bind] in H. unfold memcpy in H.
  case_bool_decide as Hn; [|done]. cbn [mbind option_bind] in H. injection H as <-.
  eapply (live_attributes T this); [done|done|done| |].
  - rewrite length_app, length_take, length_drop. lia.
  - apply Forall_app. split; [by apply Forall_take|by apply Forall_drop].
Qed.

Lemma write_bit_live T f s e s' :
  (∀ w pos, is_word T (f w pos)) → live T s → write_bit T f s e = Some s' → live T s'.
Proof.
  intros Hf Hs (arr & w & arr' & Harr & Hw & [Hi ->]%store_Some & ->)%write_bit_Some.
  destruct (wf_TokenArray _ _ (proj1 Hs)) as (arr0 & Harr0 & Hlen & Hwords).
  assert (arr0 = arr) as -> by congruence.
  eapply (live_attributes T s); [done|done|done| |].
  - rewrite length_insert. lia.
  - apply Forall_insert; [done|apply Hf].
Qed.

Lemma combine_with_live ND T f fb this c s' :
  bitwise f fb → fb false false = false →
  live T this → wf T c → combine_with ND f this c = Some s' → live T s'.
Proof.
  intros Hf Hff Hthis Hc H.
  destruct (wf_TokenArray _ _ (proj1 Hthis)) as (dst & Hdst & Hld & Hwd).
  destruct (wf_TokenArray _ _ Hc) as (src & Hsrc & _ & Hws).
  unfold combine_with in H. rewrite Hdst, Hsrc in H.
  apply assert_bind_Some in H. cbn [mbind option_bind] in H.
  destruct (vector_op f dst dst src (Tokens this)) as [r|] eqn:Hr; [|done].
  cbn [mbind option_bind] in H. injection H as <-.
  eapply (live_attributes T this); [done|done|done| |].
  - destruct (vector_op_lookup _ _ _ _ _ _ 0%nat Hr) as [-> _]. lia.
  - apply Forall_lookup. intros j w Hj.
    destruct (vector_op_lookup _ _ _ _ _ _ j Hr) as [_ Hlk]. rewrite Hj in Hlk.
    case_bool_decide.
    + destruct (dst !! j) as [x|] eqn:Hx; [|done].
      destruct (src !! j) as [y|] eqn:Hy; [|done]. simpl in Hlk.
      injection Hlk as ->. eapply bitwise_is_word; [done..| |].
      * by eapply (Forall_lookup_1 _ dst).
      * by eapply (Forall_lookup_1 _ src).
    + by eapply (Forall_lookup_1 _ dst).
Qed.

Lemma assign_live ND T indet this rh s' :
  live T this → live T rh → assign ND T indet this rh = Some s' → live T s'.
Proof.
  intros Hthis Hrh. unfold assign.
  destruct (Tokens rh =? Tokens this); simpl.
  - apply CopyFrom_live; [exact Hthis|exact (proj1 Hrh)].
  - pose proof (wf_Tokens_range _ _ (proj1 Hrh)) as Htr.
    destruct (length_realloc T indet (TokenArray this) (Tokens rh) Htr)
      as (blk & -> & Hlen & Hwords).
    apply CopyFrom_live; [|exact (proj1 Hrh)].
    destruct Hrh as [[Hmax Hwc _] Hmask].
    split; [split|]; [done|done| |done].
    exists blk. split; [done|]. split; [simpl; lia|]. apply Hwords.
    destruct (wf_TokenArray _ _ (proj1 Hthis)) as (arr & -> & _ & Hw). done.
Qed.

(** The state of a live object is what the constructor establishes and every
    member function keeps, whatever the build: the hypotheses [wf] of the
    theorems above hold of every object a program can reach. *)
Theorem live_maintained ND TE T indet :
  (∀ n, 0 ≤ n < 2 ^ 32 → ∃ s, BitSet_new T indet n = Some s ∧ live T s) ∧
  (∀ c s, live T c → BitSet_copy ND T indet c = Some s → live T s) ∧
  (∀ rhs, live T rhs → live T (BitSet_move rhs).1) ∧
  (∀ m s s', live T s → operand_live T m → call ND TE T indet m s = Some s' → live T s').
Proof.
  split; [|split; [|split]].
  - intros n Hn. destruct (BitSet_new T indet n) as [s|] eqn:Hs.
    + exists s. split; [done|]. split; [by eapply BitSet_new_wf|].
      rewrite BitSet_new_Some in Hs by done. by injection Hs as <-.
    + by rewrite BitSet_new_Some in Hs.
  - intros c s Hc H. unfold BitSet_copy in H.
    pose proof (wf_Tokens_range _ _ (proj1 Hc)) as Htr.
    rewrite malloc_ReqSize in H by done.
    eapply CopyFrom_live; [|exact (proj1 Hc)|exact H].
    destruct Hc as [[Hmax Hwc _] Hmask]. split; [split|]; [done|done| |done].
    eexists. split; [done|]. split; [|apply fresh_block_words].
    simpl. rewrite length_fresh_block. lia.
  - intros rhs Hr. destruct rhs. exact Hr.
  - intros m s s' Hs Hm H. destruct m; cbn [call operand_live] in *.
    + destruct (wf_TokenArray _ _ (proj1 Hs)) as (arr & Harr & Hlen & Hwords).
      pose proof (wf_Tokens_range _ _ (proj1 Hs)) as Ht.
      rewrite (Clear_Some s arr) in H by (done || lia). injection H as <-.
      eapply (live_attributes T s); [done|done|done| |].
      * rewrite length_app, length_replicate, length_drop. lia.
      * apply Forall_app. split; [apply Forall_replicate, is_word_0|by apply Forall_drop].
    + eapply CopyFrom_live; [exact Hs|exact (proj1 Hm)|exact H].
    + eapply assign_live; [exact Hs|exact Hm|exact H].
    + destruct (Contains ND T s element); [|done]. by injection H as <-.
    + rewrite Add_unfold in H. destruct (asserts_hold ND T s element); [|done].
      eapply write_bit_live; [|done..]. intros w pos. apply wrap_t_is_word.
    + rewrite Remove_unfold in H. destruct (asserts_hold ND T s element); [|done].
      eapply write_bit_live; [|done..]. intros w pos. apply wrap_t_is_word.
    + destruct (IsEmpty s); [|done]. by injection H as <-.
    + by injection H as <-.
    + rewrite UnionWith_combine in H.
      eapply (combine_with_live ND T Z.lor orb); [apply bitwise_lor|done|exact Hs|exact (proj1 Hm)|exact H].
    + rewrite IntersectWith_combine in H.
      eapply (combine_with_live ND T Z.land andb); [apply bitwise_land|done|exact Hs|exact (proj1 Hm)|exact H].
    + split; [by eapply Complement_wf; [apply Hs|]|].
      destruct (Complement_Some T s (proj1 Hs)) as (arr & arr' & _ & Hc & _).
      rewrite Hc in H. injection H as <-. apply Hs.
    + apply fmap_Some in H as ([s0 st'] & H & ->).
      apply ForEachMember_Some_this in H. simpl. by subst.
Qed.

(** In a checked build the first assertion of [Contains], [Add] and [Remove]
    multiplies [Tokens * ElementsPerToken] in [unsigned]: for the universe of
    [2^32 - 1] elements over 32-bit words the constructor counts [2^27] words,
    the product wraps to zero, and the three calls stop at the assertion for
    every element. *)
Lemma checked_build_largest_universe indet :
  Tokens <$> BitSet_new uint32_t indet (2 ^ 32 - 1) = Some (2 ^ 27) ∧
  ∀ s e, Tokens s = 2 ^ 27 → 0 ≤ e →
    Contains false uint32_t s e = None
    ∧ Add false uint32_t s e = None
    ∧ Remove false uint32_t s e = None.
Proof.
  split; [by rewrite BitSet_new_Some|].
  intros s e Ht He.
  assert (asserts_hold false uint32_t s e = false) as Hpre.
  { unfold asserts_hold. rewrite Ht. simpl.
    change (wrap_unsigned (2 ^ 27 * ElementsPerToken uint32_t)) with 0.
    by destruct (Z.ltb_spec e 0); [lia|]. }
  by rewrite Contains_unfold, Add_unfold, Remove_unfold, Hpre.
Qed.

(** ** Checked builds: when [Contains], [Add] and [Remove] return *)

(** Case analysis on the word type, with its width as a numeral. *)
Ltac concrete_bits T :=
  destruct T;
  [ change (bits uint8_t) with 8 in *
  | change (bits uint16_t) with 16 in *
  | change (bits uint32_t) with 32 in *
  | change (bits uint64_t) with 64 in * ].

(** The product in the first assertion, as [unsigned] arithmetic gives it: the
    true one up to the universe size [2^32 - bits T], zero above it. *)
Lemma wrap_Tokens_product T s :
  wf T s →
  wrap_unsigned (Tokens s * ElementsPerToken T)
  = if bool_decide (MaxElements s ≤ 2 ^ 32 - bits T) then Tokens s * bits T else 0.
Proof.
  intros [Hmax Hwc _]. red in Hwc. rewrite ElementsPerToken_bits, Hwc.
  unfold wrap_unsigned, wrap, ceil_div.
  pose proof (Z.div_mod (MaxElements s + bits T - 1) (bits T)) as Hdm.
  pose proof (Z.mod_pos_bound (MaxElements s + bits T - 1) (bits T)) as Hmod.
  case_bool_decide as Hle.
  - apply Z.mod_small. concrete_bits T; lia.
  - assert ((MaxElements s + bits T - 1) / bits T * bits T = 2 ^ 32) as ->; [|done].
    concrete_bits T; lia.
Qed.

Lemma Tokens_product_bounds T s :
  wf T s → MaxElements s ≤ Tokens s * bits T < MaxElements s + bits T.
Proof.
  intros [Hmax Hwc _]. red in Hwc. rewrite Hwc. unfold ceil_div.
  pose proof (Z.div_mod (MaxElements s + bits T - 1) (bits T)) as Hdm.
  pose proof (Z.mod_pos_bound (MaxElements s + bits T - 1) (bits T)) as Hmod.
  concrete_bits T; lia.
Qed.

Lemma asserts_hold_checked T s e :
  wf T s →
  asserts_hold false T s e = true ↔ e < MaxElements s ∧ (0 ≤ e → MaxElements s ≤ 2 ^ 32 - bits T).
Proof.
  intros Hwf. pose proof (Tokens_product_bounds T s Hwf) as Hb.
  unfold asserts_hold. rewrite (wrap_Tokens_product T s Hwf).
  cbn [orb]. rewrite andb_true_iff, !Z.ltb_lt.
  case_bool_decide; split; intros [H1 H2]; (split; [lia|try lia]).
Qed.

Lemma read_bit_is_Some T s e arr :
  TokenArray s = Some arr →
  is_Some (read_bit T s e) ↔ 0 ≤ e / bits T < Z.of_nat (length arr).
Proof.
  intros Harr. unfold read_bit. rewrite ElementsPerToken_bits, Harr. simpl.
  unfold index. case_bool_decide as Hi.
  - destruct (arr !! Z.to_nat (e / bits T)) as [w|] eqn:Hw; simpl.
    + apply lookup_lt_Some in Hw. split; [lia|eauto].
    + apply lookup_ge_None in Hw. split; [by intros [? ?]|lia].
  - simpl. split; [by intros [? ?]|lia].
Qed.

Lemma write_bit_is_Some_iff T f s e arr :
  TokenArray s = Some arr →
  is_Some (write_bit T f s e) ↔ 0 ≤ e / bits T < Z.of_nat (length arr).
Proof.
  intros Harr. pose proof (bits_range T) as Hb. split.
  - intros [s' (arr0 & w & arr' & Harr0 & Hw & _)%write_bit_Some].
    assert (arr0 = arr) as -> by congruence. by apply index_lt in Hw.
  - intros Hi. unfold write_bit. rewrite ElementsPerToken_bits, Harr. simpl.
    destruct (lookup_lt_is_Some_2 arr (Z.to_nat (e / bits T))) as [w Hw]; [lia|].
    rewrite index_lookup, Hw by lia. simpl.
    rewrite store_in_range by lia. simpl. eauto.
Qed.

Lemma div_nonneg_iff e b : 0 < b → 0 ≤ e / b ↔ 0 ≤ e.
Proof.
  intros Hb. split; [|intros; apply Z.div_pos; lia].
  intros Hq. destruct (decide (0 ≤ e)); [done|].
  pose proof (Z.div_lt_upper_bound e b 0 Hb). lia.
Qed.

(** In a checked build, on a live object, [Contains(e)], [Add(e)] and
    [Remove(e)] return exactly for the elements [0 <= e < MaxElements] of a
    universe of at most [2^32 - bits T] elements; on a larger universe they
    stop at the first assertion for every element. *)
Theorem checked_calls_return_iff T s e :
  wf T s →
  (is_Some (Contains false T s e)
     ↔ 0 ≤ e < MaxElements s ∧ MaxElements s ≤ 2 ^ 32 - bits T) ∧
  (is_Some (Add false T s e)
     ↔ 0 ≤ e < MaxElements s ∧ MaxElements s ≤ 2 ^ 32 - bits T) ∧
  (is_Some (Remove false T s e)
     ↔ 0 ≤ e < MaxElements s ∧ MaxElements s ≤ 2 ^ 32 - bits T).
Proof.
  intros Hwf. pose proof (bits_range T) as Hb.
  destruct (wf_TokenArray _ _ Hwf) as (arr & Harr & Hlen & _).
  pose proof (asserts_hold_checked T s e Hwf) as Hpre.
  pose proof (div_nonneg_iff e (bits T)) as Hdiv.
  assert (0 ≤ e < MaxElements s → 0 ≤ e / bits T < Z.of_nat (length arr)) as Hin
    by (intros; by eapply valid_token_lt).
  rewrite Contains_unfold, Add_unfold, Remove_unfold.
  destruct (asserts_hold false T s e).
  - rewrite (read_bit_is_Some T s e arr Harr), !(write_bit_is_Some_iff T _ s e arr Harr).
    destruct Hpre as [Hpre _]. specialize (Hpre eq_refl).
    repeat split; try (intros [? ?]; lia); try (intros; apply Hin; lia); lia.
  - assert (¬ (0 ≤ e < MaxElements s ∧ MaxElements s ≤ 2 ^ 32 - bits T)) as Hno.
    { intros [? ?]. destruct Hpre as [_ Hpre]. by discriminate Hpre; [split; [lia|done]]. }
    repeat split; try (by intros [? ?]); intros; by destruct Hno.
Qed.

(** ** [Add] and [Remove]: repetition and round trips *)

Lemma SetBit_SetBit T w pos :
  0 ≤ pos < bits T → BU.SetBit T (BU.SetBit T w pos) pos = BU.SetBit T w pos.
Proof.
  intros Hp. apply Z.bits_inj'. intros j Hj.
  destruct (decide (j < bits T)).
  - pose proof (TestBit_SetBit T (BU.SetBit T w pos) pos j Hp) as H1.
    pose proof (TestBit_SetBit T w pos j Hp) as H2. unfold BU.TestBit in *.
    rewrite H1, H2 by lia. by destruct (bool_decide (pos = j)).
  - unfold BU.SetBit, wrap_t, wrap. by rewrite !Z.mod_pow2_bits_high by lia.
Qed.

Lemma ClearBit_ClearBit T w pos :
  0 ≤ pos < bits T → BU.ClearBit T (BU.ClearBit T w pos) pos = BU.ClearBit T w pos.
Proof.
  intros Hp. apply Z.bits_inj'. intros j Hj.
  destruct (decide (j < bits T)).
  - pose proof (TestBit_ClearBit T (BU.ClearBit T w pos) pos j Hp) as H1.
    pose proof (TestBit_ClearBit T w pos j Hp) as H2. unfold BU.TestBit in *.
    rewrite H1, H2 by lia. by destruct (bool_decide (pos = j)).
  - unfold BU.ClearBit, wrap_t, wrap. by rewrite !Z.mod_pow2_bits_high by lia.
Qed.

Lemma ClearBit_SetBit T w pos :
  is_word T w → 0 ≤ pos < bits T → Z.testbit w pos = false →
  BU.ClearBit T (BU.SetBit T w pos) pos = w.
Proof.
  intros Hw Hp Hbit. apply Z.bits_inj'. intros j Hj.
  destruct (decide (j < bits T)).
  - pose proof (TestBit_ClearBit T (BU.SetBit T w pos) pos j Hp) as H1.
    pose proof (TestBit_SetBit T w pos j Hp) as H2. unfold BU.TestBit in *.
    rewrite H1, H2 by lia. case_bool_decide; [by subst|done].
  - rewrite (testbit_word_high T w) by (done || lia).
    unfold BU.ClearBit, wrap_t, wrap. by rewrite Z.mod_pow2_bits_high by lia.
Qed.

Lemma SetBit_ClearBit T w pos :
  is_word T w → 0 ≤ pos < bits T → Z.testbit w pos = true →
  BU.SetBit T (BU.ClearBit T w pos) pos = w.
Proof.
  intros Hw Hp Hbit. apply Z.bits_inj'. intros j Hj.
  destruct (decide (j < bits T)).
  - pose proof (TestBit_SetBit T (BU.ClearBit T w pos) pos j Hp) as H1.
    pose proof (TestBit_ClearBit T w pos j Hp) as H2. unfold BU.TestBit in *.
    rewrite H1, H2 by lia. case_bool_decide; [by subst|done].
  - rewrite (testbit_word_high T w) by (done || lia).
    unfold BU.SetBit, wrap_t, wrap. by rewrite Z.mod_pow2_bits_high by lia.
Qed.

(** Two writes for the same element in a row: the second one writes
    [g (f w pos) pos] over what the first one wrote. *)
Lemma write_bit_write_bit T f g s e s1 :
  write_bit T f s e = Some s1 →
  ∃ arr w,
    TokenArray s = Some arr ∧ index arr (e / bits T) = Some w
    ∧ s1 = with_TokenArray s (Some (<[Z.to_nat (e / bits T) := f w (e mod bits T)]> arr))
    ∧ write_bit T g s1 e
      = Some (with_TokenArray s
                (Some (<[Z.to_nat (e / bits T) := g (f w (e mod bits T)) (e mod bits T)]> arr))).
Proof.
  intros (arr & w & arr' & Harr & Hw & Hst & ->)%write_bit_Some.
  pose proof (index_lt _ _ _ Hw) as Hi.
  apply store_Some in Hst as [_ ->].
  exists arr, w. split; [done|]. split; [done|]. split; [done|].
  unfold write_bit. rewrite ElementsPerToken_bits. simpl.
  rewrite index_lookup, list_lookup_insert_eq by lia. simpl.
  rewrite store_in_range by (rewrite length_insert; lia). simpl.
  by rewrite list_insert_insert_eq.
Qed.

(** [Add] and [Remove] are idempotent: a second call for the same element
    returns and leaves the object as the first call left it. *)
Theorem Add_Remove_idempotent ND T s e s1 :
  (Add ND T s e = Some s1 → Add ND T s1 e = Some s1) ∧
  (Remove ND T s e = Some s1 → Remove ND T s1 e = Some s1).
Proof.
  pose proof (bits_range T) as Hb.
  assert (0 ≤ e mod bits T < bits T) as Hoff by (apply Z.mod_pos_bound; lia).
  split.
  - rewrite !Add_unfold. destruct (asserts_hold ND T s e) eqn:Hpre; [|done]. intros H.
    rewrite (write_bit_asserts_hold ND _ _ _ _ _ H), Hpre.
    destruct (write_bit_write_bit T _ (BU.SetBit T) _ _ _ H) as (arr & w & _ & _ & -> & ->).
    by rewrite SetBit_SetBit.
  - rewrite !Remove_unfold. destruct (asserts_hold ND T s e) eqn:Hpre; [|done]. intros H.
    rewrite (write_bit_asserts_hold ND _ _ _ _ _ H), Hpre.
    destruct (write_bit_write_bit T _ (BU.ClearBit T) _ _ _ H) as (arr & w & _ & _ & -> & ->).
    by rewrite ClearBit_ClearBit.
Qed.

Lemma with_TokenArray_id s arr : TokenArray s = Some arr → with_TokenArray s (Some arr) = s.
Proof. destruct s. simpl. by intros ->. Qed.

Lemma Contains_Some_inv ND T s e b :
  Contains ND T s e = Some b →
  asserts_hold ND T s e = true
  ∧ ∃ arr w, TokenArray s = Some arr ∧ index arr (e / bits T) = Some w
             ∧ Z.testbit w (e mod bits T) = b.
Proof.
  rewrite Contains_unfold. destruct (asserts_hold ND T s e); [|done].
  unfold read_bit. rewrite ElementsPerToken_bits. intros H. split; [done|].
  destruct (TokenArray s) as [arr|]; [|done]. simpl in H.
  destruct (index arr (e / bits T)) as [w|] eqn:Hw; [|done]. simpl in H.
  injection H as H. eauto.
Qed.

(** On a live object: adding an element that is not a member and removing it
    again gives back the object as it was, and so does removing a member and
    adding it again; adding a member, or removing an element that is not one,
    changes nothing. *)
Theorem Add_Remove_round_trip ND T s e :
  wf T s →
  (Contains ND T s e = Some false →
     Remove ND T s e = Some s
     ∧ ∃ s1, Add ND T s e = Some s1 ∧ Remove ND T s1 e = Some s) ∧
  (Contains ND T s e = Some true →
     Add ND T s e = Some s
     ∧ ∃ s1, Remove ND T s e = Some s1 ∧ Add ND T s1 e = Some s).
Proof.
  intros Hwf. pose proof (bits_range T) as Hb.
  assert (0 ≤ e mod bits T < bits T) as Hoff by (apply Z.mod_pos_bound; lia).
  destruct (wf_TokenArray _ _ Hwf) as (arr0 & Harr0 & _ & Hwords).
  assert (∀ b f g,
    Contains ND T s e = Some b →
    (∀ w, is_word T w → Z.testbit w (e mod bits T) = b → f w (e mod bits T) = w) →
    (∀ w, is_word T w → Z.testbit w (e mod bits T) = b →
          f (g w (e mod bits T)) (e mod bits T) = w) →
    (if asserts_hold ND T s e then write_bit T f s e else None) = Some s
    ∧ ∃ s1, (if asserts_hold ND T s e then write_bit T g s e else None) = Some s1
            ∧ (if asserts_hold ND T s1 e then write_bit T f s1 e else None) = Some s) as Haux.
  { intros b f g (Hpre & arr & w & Harr & Hw & Hbit)%Contains_Some_inv Hf Hfg.
    assert (arr0 = arr) as -> by congruence.
    pose proof (index_lt _ _ _ Hw) as Hi.
    assert (is_word T w) as Hword.
    { apply index_Some in Hw as [_ Hw]. by eapply (Forall_lookup_1 _ arr). }
    assert (write_bit T g s e
            = Some (with_TokenArray s
                      (Some (<[Z.to_nat (e / bits T) := g w (e mod bits T)]> arr)))) as Hg.
    { unfold write_bit. rewrite ElementsPerToken_bits, Harr. simpl. rewrite Hw. simpl.
      by rewrite store_in_range by lia. }
    rewrite Hpre. split.
    - unfold write_bit. rewrite ElementsPerToken_bits, Harr. simpl. rewrite Hw. simpl.
      rewrite store_in_range by lia. simpl. rewrite Hf by done.
      apply index_Some in Hw as [_ Hw]. rewrite list_insert_id by done.
      by rewrite with_TokenArray_id.
    - eexists. split; [exact Hg|]. rewrite asserts_hold_with_TokenArray, Hpre.
      destruct (write_bit_write_bit T g f s e _ Hg) as (arr1 & w1 & Harr1 & Hw1 & _ & ->).
      assert (arr1 = arr) as -> by congruence. assert (w1 = w) as -> by congruence.
      rewrite Hfg by done.
      apply index_Some in Hw as [_ Hw]. rewrite list_insert_id by done.
      by rewrite with_TokenArray_id. }
  rewrite !Add_unfold, !Remove_unfold. split; intros Hc.
  - destruct (Haux false (BU.ClearBit T) (BU.SetBit T) Hc) as [H1 (s1 & H2 & H3)].
    + intros w Hw Hbit. apply Z.bits_inj'. intros j Hj.
      destruct (decide (j < bits T)).
      * pose proof (TestBit_ClearBit T w (e mod bits T) j Hoff) as H. unfold BU.TestBit in H.
        rewrite H by lia. case_bool_decide; [by subst|done].
      * rewrite (testbit_word_high T w) by (done || lia).
        unfold BU.ClearBit, wrap_t, wrap. by rewrite Z.mod_pow2_bits_high by lia.
    + intros w Hw Hbit. by apply ClearBit_SetBit.
    + split; [done|]. exists s1. split; [done|]. by rewrite Remove_unfold.
  - destruct (Haux true (BU.SetBit T) (BU.ClearBit T) Hc) as [H1 (s1 & H2 & H3)].
    + intros w Hw Hbit. apply Z.bits_inj'. intros j Hj.
      destruct (decide (j < bits T)).
      * pose proof (TestBit_SetBit T w (e mod bits T) j Hoff) as H. unfold BU.TestBit in H.
        rewrite H by lia. case_bool_decide; [by subst|done].
      * rewrite (testbit_word_high T w) by (done || lia).
        unfold BU.SetBit, wrap_t, wrap. by rewrite Z.mod_pow2_bits_high by lia.
    + intros w Hw Hbit. by apply SetBit_ClearBit.
    + split; [done|]. exists s1. split; [done|]. by rewrite Add_unfold.
Qed.

(** ** Bit positions of the storage words *)

(** Position [e] of the storage is bit [e mod bits T] of word [e / bits T]. *)
Lemma read_bit_position T s arr e :
  TokenArray s = Some arr → 0 ≤ e → e / bits T < Z.of_nat (length arr) →
  ∃ w, arr !! Z.to_nat (e / bits T) = Some w
       ∧ read_bit T s e = Some (Z.testbit w (e mod bits T)).
Proof.
  intros Harr He Hlt. pose proof (bits_range T) as Hb.
  assert (0 ≤ e / bits T) by (apply Z.div_pos; lia).
  destruct (lookup_lt_is_Some_2 arr (Z.to_nat (e / bits T))) as [w Hw]; [lia|].
  exists w. split; [done|].
  unfold read_bit. rewrite ElementsPerToken_bits, Harr. simpl.
  by rewrite index_lookup, Hw by done.
Qed.

Lemma position_in_words T s e :
  wf T s → 0 ≤ e < Tokens s * bits T → 0 ≤ e / bits T < Tokens s.
Proof.
  intros Hwf He. pose proof (bits_range T) as Hb. split; [apply Z.div_pos; lia|].
  apply Z.div_lt_upper_bound; lia.
Qed.

Lemma position_of_bit i j b : 0 < b → 0 ≤ j < b → (i * b + j) / b = i ∧ (i * b + j) mod b = j.
Proof.
  intros Hb Hj. split.
  - symmetry. apply (Z.div_unique _ _ _ j); lia.
  - symmetry. apply (Z.mod_unique _ _ i); lia.
Qed.

(** A word that is not zero has a set bit. *)
Lemma word_nonzero_bit T w :
  is_word T w → w ≠ 0 → ∃ j, 0 ≤ j < bits T ∧ Z.testbit w j = true.
Proof.
  intros Hw Hne. destruct (BU.BitScanForward T w) as [idx|] eqn:Hbsf.
  - apply BitScanForward_Some in Hbsf as (Hr & Hset & _). eauto.
  - destruct Hne. apply Z.bits_inj'. intros j Hj. rewrite Z.bits_0.
    destruct (decide (j < bits T)).
    + rewrite BitScanForward_None in Hbsf. apply Hbsf. lia.
    + apply (testbit_word_high T); [done|lia].
Qed.

(** ** [IsEmpty] against the storage and against membership *)

Lemma IsEmpty_loop_result arr i n :
  0 ≤ i → i + Z.of_nat n ≤ Z.of_nat (length arr) →
  let loop := for_loop_ret (λ s (_ : unit),
      w ← index arr s;
      if negb (w =? 0) then Some (inr false) else Some (inl tt)) i n tt in
  (loop = Some (inl tt) ∧ ∀ j, i ≤ j < i + Z.of_nat n → index arr j = Some 0)
  ∨ (loop = Some (inr false)
     ∧ ∃ j w, i ≤ j < i + Z.of_nat n ∧ index arr j = Some w ∧ w ≠ 0).
Proof.
  revert i. induction n as [|n IH]; intros i Hi Hn; cbn zeta.
  - left. split; [done|]. intros j Hj. lia.
  - cbn [for_loop_ret].
    destruct (lookup_lt_is_Some_2 arr (Z.to_nat i)) as [w Hw]; [lia|].
    assert (index arr i = Some w) as Hiw by (by rewrite index_lookup).
    rewrite Hiw. cbn [mbind option_bind].
    destruct (Z.eqb_spec w 0) as [->|Hne]; cbn [negb].
    + destruct (IH (i + 1)) as [[Hl Hz]|[Hl (j & w & Hj & Hjw & Hne)]]; [lia|lia| |].
      * left. split; [done|]. intros j Hj.
        destruct (decide (j = i)) as [->|]; [done|]. apply Hz. lia.
      * right. split; [done|]. exists j, w. split; [lia|done].
    + right. split; [done|]. exists i, w. split; [lia|done].
Qed.

(** [IsEmpty] returns on every live object, and returns true exactly when no
    bit of the first [Tokens] words is set, the bits beyond the universe size
    included. *)
Lemma IsEmpty_storage T s :
  wf T s →
  is_Some (IsEmpty s)
  ∧ (IsEmpty s = Some true ↔ ∀ e, 0 ≤ e < Tokens s * bits T → read_bit T s e = Some false).
Proof.
  intros Hwf. pose proof (bits_range T) as Hb.
  pose proof (wf_Tokens_range _ _ Hwf) as Ht.
  destruct (wf_TokenArray _ _ Hwf) as (arr & Harr & Hlen & Hwords).
  unfold IsEmpty. rewrite Harr. cbn [mbind option_bind].
  destruct (IsEmpty_loop_result arr 0 (Z.to_nat (Tokens s)))
    as [[-> Hz]|[-> (j & w & Hj & Hjw & Hne)]]; [lia|lia| |]; cbn [mbind option_bind].
  - split; [eauto|]. split; [|done]. intros _ e He.
    pose proof (position_in_words T s e Hwf He) as Hq.
    destruct (read_bit_position T s arr e Harr) as (w & Hw & ->); [lia|lia|].
    specialize (Hz (e / bits T)). rewrite index_lookup, Hw in Hz by lia.
    assert (w = 0) as -> by (injection Hz; [done|lia]). by rewrite Z.bits_0.
  - split; [eauto|]. split; [done|]. intros Hall.
    apply index_Some in Hjw as [_ Hjw].
    destruct (word_nonzero_bit T w) as (k & Hk & Hset); [by eapply (Forall_lookup_1 _ arr)|done|].
    destruct (position_of_bit j k (bits T)) as [Hq Hr]; [lia|lia|].
    destruct (read_bit_position T s arr (j * bits T + k) Harr) as (w' & Hw' & Hread);
      [nia|rewrite Hq; lia|].
    rewrite Hq in Hw'. rewrite Hr in Hread. assert (w' = w) as -> by congruence.
    rewrite Hall in Hread by nia. congruence.
Qed.

Lemma Contains_read_bit ND T s e :
  wf T s → 0 ≤ e < MaxElements s → assert_exact ND T s →
  Contains ND T s e = read_bit T s e.
Proof. intros Hwf He Hex. by rewrite Contains_unfold, asserts_hold_valid. Qed.


(** ** The bits beyond the universe size *)

Lemma zeroed_read_bit T s rest e :
  TokenArray s = Some (replicate (Z.to_nat (Tokens s)) 0 ++ rest) →
  0 ≤ e < Tokens s * bits T → read_bit T s e = Some false.
Proof.
  intros Harr He. pose proof (bits_range T) as Hb.
  assert (0 ≤ e / bits T < Tokens s) as Hq.
  { split; [apply Z.div_pos; lia|]. apply Z.div_lt_upper_bound; lia. }
  unfold read_bit. rewrite ElementsPerToken_bits, Harr. simpl.
  rewrite index_lookup by lia.
  rewrite lookup_app_l by (rewrite length_replicate; lia).
  rewrite lookup_replicate_2 by lia. simpl. unfold BU.TestBit. by rewrite Z.bits_0.
Qed.

(** What a write for element [e] leaves at another position [f]. *)
Lemma read_write_bit_other T f s e s' e' :
  0 ≤ e' → e ≠ e' → write_bit T f s e = Some s' →
  (∀ w pos pos', 0 ≤ pos < bits T → 0 ≤ pos' < bits T → pos ≠ pos' →
     Z.testbit (f w pos) pos' = Z.testbit w pos') →
  read_bit T s' e' = read_bit T s e'.
Proof.
  intros He' Hne Hwr Hf. pose proof (bits_range T) as Hb.
  rewrite (read_write_bit _ _ _ _ _ e' He' Hwr).
  unfold read_bit. rewrite ElementsPerToken_bits.
  destruct (TokenArray s) as [arr|]; [|done]. simpl.
  destruct (index arr (e' / bits T)) as [w|]; [|done]. simpl.
  case_bool_decide as Hq; [|done]. unfold BU.TestBit. rewrite Hf; [done| | |].
  - apply Z.mod_pos_bound. lia.
  - apply Z.mod_pos_bound. lia.
  - intros Hr. apply Hne.
    rewrite (Z.div_mod e (bits T)), (Z.div_mod e' (bits T)) by lia. congruence.
Qed.

Lemma testbit_SetBit_other T w pos pos' :
  0 ≤ pos < bits T → 0 ≤ pos' < bits T → pos ≠ pos' →
  Z.testbit (BU.SetBit T w pos) pos' = Z.testbit w pos'.
Proof.
  intros Hp Hp' Hne. pose proof (TestBit_SetBit T w pos pos' Hp Hp') as H.
  unfold BU.TestBit in H. by rewrite H, bool_decide_eq_false_2.
Qed.

Lemma testbit_ClearBit_le T w pos pos' :
  0 ≤ pos < bits T → 0 ≤ pos' < bits T →
  Z.testbit w pos' = false → Z.testbit (BU.ClearBit T w pos) pos' = false.
Proof.
  intros Hp Hp' Hw. pose proof (TestBit_ClearBit T w pos pos' Hp Hp') as H.
  unfold BU.TestBit in H. rewrite H, Hw. apply andb_false_r.
Qed.

(** The shared operation of [UnionWith] and [IntersectWith] at every
    position of the first [Tokens] words. *)
Lemma combine_with_positions ND T f fb a b ab e :
  bitwise f fb → wf T a → wf T b → Tokens b = Tokens a →
  combine_with ND f a b = Some ab → 0 ≤ e < Tokens a * bits T →
  read_bit T ab e = x ← read_bit T a e; y ← read_bit T b e; Some (fb x y).
Proof.
  intros Hf Hwa Hwb Htok H He. pose proof (bits_range T) as Hbits.
  pose proof (position_in_words T a e Hwa He) as Hq.
  destruct (wf_TokenArray _ _ Hwa) as (arr_a & Ha & Hla & _).
  destruct (wf_TokenArray _ _ Hwb) as (arr_b & Hb & Hlb & _).
  unfold combine_with in H. rewrite Ha, Hb in H.
  apply assert_bind_Some in H. cbn [mbind option_bind] in H.
  destruct (vector_op f arr_a arr_a arr_b (Tokens a)) as [r|] eqn:Hr; [|done].
  cbn [mbind option_bind] in H. injection H as <-.
  unfold read_bit. rewrite ElementsPerToken_bits, Ha, Hb. simpl.
  rewrite !index_lookup by lia.
  destruct (vector_op_lookup _ _ _ _ _ _ (Z.to_nat (e / bits T)) Hr) as [_ ->].
  rewrite bool_decide_eq_true_2 by lia.
  destruct (arr_a !! _) as [x|]; [|done]. simpl.
  destruct (arr_b !! _) as [y|]; [|done]. simpl.
  unfold BU.TestBit. rewrite Hf; [done|]. apply Z.mod_pos_bound. lia.
Qed.

Lemma combine_with_attributes ND f a b ab :
  combine_with ND f a b = Some ab → attributes ab = attributes a.
Proof.
  unfold combine_with. intros H. apply assert_bind_Some in H.
  destruct (TokenArray a); [cbn [mbind option_bind] in H|done].
  destruct (TokenArray b); [cbn [mbind option_bind] in H|done].
  destruct (vector_op _ _ _ _ _); [|done]. by injection H as <-.
Qed.

(** The constructor leaves the bits beyond the universe size clear, and
    [Clear], [Add] of a valid element, [Remove], [UnionWith] with an operand
    in that state and [IntersectWith] keep them clear. *)
Theorem tail_clear_kept ND T indet :
  (∀ n s, 0 ≤ n < 2 ^ 32 → BitSet_new T indet n = Some s → tail_clear T s) ∧
  (∀ s s', wf T s → Clear s = Some s' → tail_clear T s') ∧
  (∀ s e s', wf T s → tail_clear T s → e < MaxElements s →
     Add ND T s e = Some s' → tail_clear T s') ∧
  (∀ s e s', wf T s → tail_clear T s → Remove ND T s e = Some s' → tail_clear T s') ∧
  (∀ a b ab, wf T a → wf T b → Tokens b = Tokens a → MaxElements b = MaxElements a →
     tail_clear T a → tail_clear T b → UnionWith ND a b = Some ab → tail_clear T ab) ∧
  (∀ a b ab, wf T a → wf T b → Tokens b = Tokens a →
     tail_clear T a → IntersectWith ND a b = Some ab → tail_clear T ab).
Proof.
  pose proof (bits_range T) as Hb.
  split; [|split; [|split; [|split; [|split]]]].
  - intros n s Hn. rewrite BitSet_new_Some by done. intros [= <-] e He.
    eapply zeroed_read_bit; [done|]. simpl in *. lia.
  - intros s s' Hwf H e He. pose proof (wf_Tokens_range _ _ Hwf) as Ht.
    destruct (wf_TokenArray _ _ Hwf) as (arr & Harr & Hlen & _).
    rewrite (Clear_Some s arr) in H by (done || lia). injection H as <-.
    eapply zeroed_read_bit; [done|]. destruct Hwf as [Hmax _ _]. simpl in *. lia.
  - intros s e s' Hwf Htail He. rewrite Add_unfold.
    destruct (asserts_hold ND T s e); [|done]. intros H f Hf.
    pose proof (write_bit_Some _ _ _ _ _ H) as (? & ? & ? & _ & _ & _ & ->).
    destruct Hwf as [Hmax _ _]. simpl in Hf.
    rewrite (read_write_bit_other T _ s e _ f) by
      (done || lia || (intros; by apply testbit_SetBit_other)).
    apply Htail. lia.
  - intros s e s' Hwf Htail. rewrite Remove_unfold.
    destruct (asserts_hold ND T s e); [|done]. intros H f Hf.
    pose proof (write_bit_Some _ _ _ _ _ H) as (? & ? & ? & _ & _ & _ & ->).
    destruct Hwf as [Hmax _ _]. simpl in Hf. specialize (Htail f Hf).
    rewrite (read_write_bit _ _ _ _ _ f ltac:(lia) H).
    unfold read_bit in Htail. rewrite ElementsPerToken_bits in Htail.
    destruct (TokenArray s) as [arr|]; [|done]. simpl in *.
    destruct (index arr (f / bits T)) as [w|]; [|done]. simpl in *.
    injection Htail as Htail. unfold BU.TestBit in *.
    case_bool_decide; [|by rewrite Htail].
    rewrite testbit_ClearBit_le; [done|apply Z.mod_pos_bound; lia..|done].
  - intros a b ab Hwa Hwb Htok Hmax Ha Hbt H e He.
    rewrite UnionWith_combine in H.
    pose proof (combine_with_attributes _ _ _ _ _ H) as [= Ht Hm _].
    rewrite Ht, Hm in He. destruct Hwa as [Hmaxa ? ?].
    rewrite (combine_with_positions ND T Z.lor orb a b ab e bitwise_lor) by (done || lia).
    rewrite Ha by done. rewrite Hbt by (rewrite Htok, Hmax; done). done.
  - intros a b ab Hwa Hwb Htok Ha H e He.
    rewrite IntersectWith_combine in H.
    pose proof (combine_with_attributes _ _ _ _ _ H) as [= Ht Hm _].
    rewrite Ht, Hm in He. pose proof (wf_MaxElements _ _ Hwa) as Hmaxa.
    rewrite (combine_with_positions ND T Z.land andb a b ab e bitwise_land) by (done || lia).
    rewrite Ha by done. simpl.
    assert (0 ≤ e < Tokens b * bits T) as Heb by (rewrite Htok; lia).
    pose proof (position_in_words T b e Hwb Heb) as Hq.
    destruct (wf_TokenArray _ _ Hwb) as (arr_b & Hab & Hlb & _).
    destruct (read_bit_position T b arr_b e Hab) as (w & _ & ->); [lia|lia|]. done.
Qed.

(** [Complement] at every position of the first [Tokens] words. *)
Lemma read_bit_Complement T s s' e :
  wf T s → Complement T s = Some s' → 0 ≤ e < Tokens s * bits T →
  read_bit T s' e = negb <$> read_bit T s e.
Proof.
  intros Hwf H He. pose proof (bits_range T) as Hb.
  destruct (Complement_Some T s Hwf) as (arr & arr' & Harr & Hc & Hlen & Hlk).
  assert (s' = with_TokenArray s (Some arr')) as -> by congruence.
  pose proof (position_in_words T s e Hwf He) as Hq.
  unfold read_bit. rewrite ElementsPerToken_bits, Harr. simpl.
  rewrite !index_lookup, Hlk by lia.
  rewrite bool_decide_eq_true_2 by lia.
  destruct (arr !! Z.to_nat (e / bits T)) as [w|]; [|done]. simpl.
  unfold BU.TestBit. rewrite testbit_flip_word; [done|]. apply Z.mod_pos_bound. lia.
Qed.

(** After [Complement()] on an object whose bits beyond the universe size
    are clear, in a universe that is not a multiple of the word width,
    [IsEmpty()] returns false: also when the object held every element, so
    that its complement has no member. *)
Theorem IsEmpty_after_Complement T s :
  wf T s → tail_clear T s → MaxElements s mod bits T ≠ 0 →
  (Complement T s ≫= IsEmpty) = Some false.
Proof.
  intros Hwf Htail Hr. pose proof (bits_range T) as Hb.
  destruct (Complement_Some T s Hwf) as (arr & arr' & Harr & Hc & Hlen & Hlk).
  assert (wf T (with_TokenArray s (Some arr'))) as Hwf' by by eapply Complement_wf.
  rewrite Hc. cbn [mbind option_bind].
  destruct (IsEmpty_storage T _ Hwf') as [[[] Hsome] Hiff]; [|done].
  destruct Hiff as [Hall _]. specialize (Hall Hsome (MaxElements s)).
  assert (MaxElements s ≤ MaxElements s < Tokens s * bits T) as Hpos.
  { destruct Hwf as [Hmax Hwc _]. red in Hwc. rewrite Hwc. unfold ceil_div.
    pose proof (Z.div_mod (MaxElements s + bits T - 1) (bits T)).
    pose proof (Z.mod_pos_bound (MaxElements s + bits T - 1) (bits T)).
    pose proof (Z.div_mod (MaxElements s) (bits T)).
    pose proof (Z.mod_pos_bound (MaxElements s) (bits T)).
    split; [lia|].
    assert ((MaxElements s + bits T - 1) / bits T = MaxElements s / bits T + 1) as ->; [|lia].
    symmetry. apply (Z.div_unique _ _ _ (MaxElements s mod bits T - 1)); lia. }
  rewrite (read_bit_Complement T s _ _ Hwf Hc) in Hall
    by (destruct Hwf as [? _ _]; simpl; lia).
  rewrite (Htail _ Hpos) in Hall. simpl in Hall.
  discriminate Hall. destruct Hwf as [? _ _]. simpl. lia.
Qed.

(** ** A new or cleared set *)

Lemma set_bits_0 T lo : set_bits T 0 lo = [].
Proof. apply set_bits_none. intros j _. apply Z.bits_0. Qed.

Lemma ForEachMember_loop_zeroed {St} TE T (cb : Z → St → bool * St) s arr n i offset st :
  TokenArray s = Some arr →
  (∀ j, i ≤ j < i + Z.of_nat n → index arr j = Some 0) →
  ∃ offset',
    for_loop_ret (ForEachMember_body TE T cb) i n (s, offset, st)
    = Some (inl (s, offset', st)).
Proof.
  intros Harr. revert i offset. induction n as [|n IH]; intros i offset Hz.
  - by eexists.
  - cbn [for_loop_ret].
    rewrite (ForEachMember_body_visit TE T cb i s offset st arr 0 Harr) by (apply Hz; lia).
    cbv zeta. rewrite Z.land_0_l.
    assert ((if i =? wrap_unsigned (Tokens s - 1) then 0 else 0) = 0) as ->
      by (by destruct (i =? _)).
    rewrite set_bits_0. cbn [fmap list_fmap visit].
    apply IH. intros j Hj. apply Hz. lia.
Qed.

(** After construction, and after [Clear()] on a live object, no valid
    element is a member and [ForEachMember] returns without calling the
    visitor, whatever the universe size. *)
Theorem no_members_after_new_and_Clear ND TE T indet s' :
  (∃ n, 0 ≤ n < 2 ^ 32 ∧ BitSet_new T indet n = Some s')
  ∨ (∃ s, wf T s ∧ Clear s = Some s') →
  (∀ e, 0 ≤ e < MaxElements s' → assert_exact ND T s' → Contains ND T s' e = Some false) ∧
  (∀ (St : Type) (cb : Z → St → bool * St) (st : St),
     ForEachMember TE T cb s' st = Some (s', st)).
Proof.
  intros Hfrom.
  assert (wf T s' ∧ ∃ rest, TokenArray s' = Some (replicate (Z.to_nat (Tokens s')) 0 ++ rest))
    as [Hwf [rest Harr]].
  { destruct Hfrom as [(n & Hn & H)|(s & Hwf & H)].
    - split; [by eapply BitSet_new_wf|].
      rewrite BitSet_new_Some in H by done. injection H as <-. by eexists.
    - pose proof (wf_Tokens_range _ _ Hwf) as Ht.
      destruct (wf_TokenArray _ _ Hwf) as (arr & Harr & Hlen & Hwords).
      rewrite (Clear_Some s arr) in H by (done || lia). injection H as <-.
      split; [|by eexists]. destruct Hwf as [Hmax Hwc _].
      split; [done|done|]. eexists. split; [done|]. split.
      + simpl. rewrite length_app, length_replicate, length_drop. lia.
      + apply Forall_app. split; [apply Forall_replicate, is_word_0|by apply Forall_drop]. }
  pose proof (wf_Tokens_range _ _ Hwf) as Ht.
  pose proof (Tokens_product_bounds T s' Hwf) as Hb.
  split.
  - intros e He Hex. rewrite Contains_read_bit by done.
    eapply zeroed_read_bit; [done|lia].
  - intros St cb st. unfold ForEachMember.
    edestruct (ForEachMember_loop_zeroed TE T cb s' _ (Z.to_nat (Tokens s')) 0 0 st Harr)
      as [offset' ->]; [|done].
    intros j Hj. rewrite index_lookup by lia.
    rewrite lookup_app_l by (rewrite length_replicate; lia).
    apply lookup_replicate_2. lia.
Qed.

(** ** What [UnionWith] and [IntersectWith] compute *)

(** On universe-compatible live objects both calls return and leave the
    attributes alone; afterwards [Contains(e)] is the disjunction, for
    [IntersectWith] the conjunction, of what it was on the two operands. *)
Theorem Contains_UnionWith_IntersectWith ND T a b e :
  wf T a → wf T b → compatible b a → 0 ≤ e < MaxElements a →
  ∃ u i,
    UnionWith ND a b = Some u ∧ IntersectWith ND a b = Some i
    ∧ attributes u = attributes a ∧ attributes i = attributes a
    ∧ Contains ND T u e = (x ← Contains ND T a e; y ← Contains ND T b e; Some (x || y))
    ∧ Contains ND T i e = (x ← Contains ND T a e; y ← Contains ND T b e; Some (x && y)).
Proof.
  intros Hwa Hwb (Htok & Hmax & Hmask) He.
  destruct (combine_with_Some ND T Z.lor orb bitwise_lor eq_refl a b)
    as (u & Hu & _ & Htu & Hmu & Hlu & Hru); [done|done|done|].
  destruct (combine_with_Some ND T Z.land andb bitwise_land eq_refl a b)
    as (i & Hi & _ & Hti & Hmi & Hli & Hri); [done|done|done|].
  exists u, i. split; [exact Hu|]. split; [exact Hi|].
  split; [unfold attributes; congruence|]. split; [unfold attributes; congruence|].
  rewrite !Contains_unfold.
  rewrite (asserts_hold_eq ND T u a), (asserts_hold_eq ND T i a), (asserts_hold_eq ND T b a)
    by congruence.
  destruct (asserts_hold ND T a e); [|done].
  rewrite Hru, Hri by done. done.
Qed.

(** ** The copy constructor *)

(** The copy of a live object is a live object with the attributes of the
    source, its membership of every valid element and its [IsEmpty()]. *)
Theorem BitSet_copy_duplicates ND T indet c :
  wf T c →
  ∃ s,
    BitSet_copy ND T indet c = Some s
    ∧ wf T s ∧ attributes s = attributes c
    ∧ (∀ e, 0 ≤ e < MaxElements c → Contains ND T s e = Contains ND T c e)
    ∧ IsEmpty s = IsEmpty c.
Proof.
  intros Hc. pose proof (bits_range T) as Hb.
  pose proof (wf_Tokens_range _ _ Hc) as Ht.
  destruct (wf_TokenArray _ _ Hc) as (src & Hsrc & Hls & Hws).
  unfold BitSet_copy. rewrite malloc_ReqSize by done.
  edestruct (CopyFrom_Some ND T
    {| Tokens := Tokens c; LastTokenMask := LastTokenMask c;
       MaxElements := MaxElements c;
       TokenArray := Some (fresh_block T indet (Tokens c)) |} c
    (fresh_block T indet (Tokens c)) src)
    as [-> Hread]; [done|done|done| |simpl; lia|].
  { simpl. rewrite length_fresh_block. lia. }
  eexists. split; [done|].
  match goal with |- wf T ?x ∧ _ => assert (wf T x) as Hs end.
  { destruct Hc as [Hmax Hwc _]. split; [done|done|]. eexists. split; [done|]. split.
    - simpl. rewrite length_app, length_take, length_drop, length_fresh_block. lia.
    - apply Forall_app. split; [by apply Forall_take|apply Forall_drop, fresh_block_words]. }
  split; [done|]. split; [done|]. split.
  - intros e He. rewrite !Contains_unfold.
    rewrite (asserts_hold_eq ND T _ c) by done.
    destruct (asserts_hold ND T c e); [|done].
    apply Hread; [lia|]. simpl.
    destruct Hc as [_ Hwc _]. red in Hwc.
    pose proof (div_lt_ceil_div e (MaxElements c) (bits T)). lia.
  - destruct (IsEmpty_storage T _ Hs) as [[b1 H1] Hiff1].
    destruct (IsEmpty_storage T c Hc) as [[b2 H2] Hiff2].
    rewrite H1, H2. f_equal.
    assert (b1 = true ↔ b2 = true) as Hb12.
    2:{ destruct b1, b2; [done| | |done].
        - discriminate (proj1 Hb12 eq_refl).
        - discriminate (proj2 Hb12 eq_refl). }
    rewrite H1 in Hiff1. rewrite H2 in Hiff2.
    assert (∀ b : bool, Some b = Some true ↔ b = true) as Hinj by (intros; split; congruence).
    rewrite <-!Hinj, Hiff1, Hiff2. simpl.
    split; intros Hall e He.
    + rewrite <-Hread; [by apply Hall|lia|]. simpl. by apply position_in_words.
    + rewrite Hread; [by apply Hall|lia|]. simpl. by apply position_in_words.
Qed.

(** ** Checked builds: which operands are accepted *)

(** In a checked build, between live objects: [CopyFrom] returns exactly for
    a universe-compatible source; copy assignment returns exactly when the
    source has another word count or is universe-compatible; [UnionWith] and
    [IntersectWith] return exactly when the word counts are equal, whether
    or not the universe sizes are. *)
Theorem checked_operands T indet this c :
  wf T this → wf T c →
  (is_Some (CopyFrom false this c) ↔ compatible c this) ∧
  (is_Some (assign false T indet this c) ↔ Tokens c ≠ Tokens this ∨ compatible c this) ∧
  (is_Some (UnionWith false this c) ↔ Tokens c = Tokens this) ∧
  (is_Some (IntersectWith false this c) ↔ Tokens c = Tokens this).
Proof.
  intros Hthis Hc.
  pose proof (wf_Tokens_range _ _ Hthis) as Htt.
  pose proof (wf_Tokens_range _ _ Hc) as Htc.
  destruct (wf_TokenArray _ _ Hthis) as (dst & Hdst & Hld & _).
  destruct (wf_TokenArray _ _ Hc) as (src & Hsrc & Hls & _).
  assert (is_Some (CopyFrom false this c) ↔ compatible c this) as Hcopy.
  { split; [intros [s' H]; by eapply CopyFrom_checked|].
    intros (Ht & Hm & Hl).
    destruct (CopyFrom_Some false T this c dst src) as [-> _];
      [unfold attributes; congruence|done|done|lia|lia|eauto]. }
  assert (∀ f fb, bitwise f fb → fb false false = false →
    is_Some (combine_with false f this c) ↔ Tokens c = Tokens this) as Hcomb.
  { intros f fb Hf Hff. split.
    - intros [s' H]. unfold combine_with, assert in H.
      destruct (Z.eqb_spec (Tokens c) (Tokens this)); done.
    - intros Ht. destruct (combine_with_Some false T f fb Hf Hff this c)
        as (ab & -> & _); [done|done|done|eauto]. }
  split; [done|]. split; [|split].
  - unfold assign. destruct (Z.eqb_spec (Tokens c) (Tokens this)) as [Heq|Hne]; simpl.
    + rewrite Hcopy. split; [by right|]. by intros [?|?].
    + split; [by left|]. intros _.
      destruct (length_realloc T indet (TokenArray this) (Tokens c) Htc) as (blk & -> & Hlen & _).
      edestruct (CopyFrom_Some false T
        {| Tokens := Tokens c; LastTokenMask := LastTokenMask c;
           MaxElements := MaxElements c; TokenArray := Some blk |} c blk src)
        as [-> _]; [done|done|done|simpl; lia|simpl; lia|eauto].
  - rewrite UnionWith_combine. by apply (Hcomb Z.lor orb bitwise_lor).
  - rewrite IntersectWith_combine. by apply (Hcomb Z.land andb bitwise_land).
Qed.

(** ** Enumeration at every universe size *)

(** [visible_bound] is the universe size when that is not a multiple of the
    word width; when it is, the whole last word lies beyond it. *)
Lemma visible_bound_cases T s :
  wf T s →
  visible_bound T s ≤ MaxElements s
  ∧ (Tokens s - 1) * bits T < MaxElements s + bits T
  ∧ (0 < MaxElements s → (Tokens s - 1) * bits T < MaxElements s)
  ∧ (MaxElements s mod bits T ≠ 0 → visible_bound T s = MaxElements s)
  ∧ (MaxElements s mod bits T = 0 → visible_bound T s = MaxElements s - bits T).
Proof.
  intros [Hmax Hwc _]. red in Hwc. unfold visible_bound. rewrite Hwc. unfold ceil_div.
  pose proof (Z.div_mod (MaxElements s + bits T - 1) (bits T)) as Hdm.
  pose proof (Z.mod_pos_bound (MaxElements s + bits T - 1) (bits T)) as Hmod.
  pose proof (Z.div_mod (MaxElements s) (bits T)) as Hdm'.
  pose proof (Z.mod_pos_bound (MaxElements s) (bits T)) as Hmod'.
  concrete_bits T; lia.
Qed.

Section ForEachMember_shown.

Context {St : Type}.
Variables (TE T : uint_t) (cb : Z → St → bool * St) (s : BitSet).
Hypothesis s_wf : wf T s.
Hypothesis s_mask : LastTokenMask s = Z.ones (MaxElements s mod bits T).
Hypothesis s_int : MaxElements s ≤ 2 ^ 31.
Hypothesis s_TElement : MaxElements s ≤ 2 ^ bits TE.

(** The bits the [while] loop sees in word [i] are the elements of that word
    below [visible_bound] whose bit is set. *)
Lemma word_elements_shown i arr w :
  TokenArray s = Some arr → 0 ≤ i < Tokens s → arr !! Z.to_nat i = Some w →
  as_element TE (wrap_int (i * bits T))
    <$> set_bits T (if i =? wrap_unsigned (Tokens s - 1)
                    then Z.land w (LastTokenMask s) else w) 0
  = filter (shown T s) (seqZ (i * bits T) (bits T)).
Proof.
  intros Harr Hi Hw. pose proof (bits_range T) as Hb.
  pose proof (wf_Tokens_range _ _ s_wf) as Ht.
  destruct (visible_bound_cases T s s_wf) as (Hvis & Hlastw & Hlast & _).
  pose proof (wf_MaxElements _ _ s_wf) as Hmax.
  pose proof (Z.mod_pos_bound (MaxElements s) (bits T)) as Hmod.
  assert (0 ≤ i * bits T < 2 ^ 31) as Hbase by nia.
  assert (wrap_unsigned (Tokens s - 1) = Tokens s - 1) as ->
    by (unfold wrap_unsigned, wrap; apply Z.mod_small; lia).
  rewrite wrap_int_small by lia.
  replace (seqZ (i * bits T) (bits T)) with (Z.add (i * bits T) <$> seqZ 0 (bits T))
    by (rewrite fmap_add_seqZ; f_equal; lia).
  rewrite filter_fmap. unfold set_bits. rewrite Z.sub_0_r.
  assert (∀ j, 0 ≤ j < bits T →
    Z.testbit (if i =? Tokens s - 1 then Z.land w (LastTokenMask s) else w) j = true
    ↔ shown T s (i * bits T + j)) as Hbit.
  { intros j Hj. unfold shown, visible_bound, read_bit.
    rewrite ElementsPerToken_bits, Harr. simpl.
    destruct (position_of_bit i j (bits T)) as [-> ->]; [lia|lia|].
    rewrite index_lookup, Hw by lia. simpl. unfold BU.TestBit.
    destruct (Z.eqb_spec i (Tokens s - 1)) as [->|Hne].
    - rewrite s_mask, Z.land_spec, Z.testbit_ones_nonneg by lia.
      rewrite andb_true_iff, Z.ltb_lt.
      split; [intros [H1 H2]; split; [lia|by f_equal]|intros [H1 [= H2]]; split; [done|lia]].
    - split; [intros Hset; split; [nia|by f_equal]|intros [_ [= Hset]]; done]. }
  rewrite (filter_ext_elem _ (λ j, shown T s (i * bits T + j)))
    by (intros j [Hj1 Hj2]%elem_of_seqZ; apply Hbit; lia).
  apply list_fmap_ext. intros k j Hk.
  apply list_elem_of_lookup_2, list_elem_of_filter in Hk as [[Hlt _] [Hj1 Hj2]%elem_of_seqZ].
  rewrite as_element_small by lia. lia.
Qed.

Lemma ForEachMember_loop_shown n i st :
  0 ≤ i → i + Z.of_nat n ≤ Tokens s →
  for_loop_ret (ForEachMember_body TE T cb) i n (s, wrap_int (i * bits T), st)
  = Some match visit cb (filter (shown T s) (seqZ (i * bits T) (Z.of_nat n * bits T))) st with
         | (true, st') => inl (s, wrap_int ((i + Z.of_nat n) * bits T), st')
         | (false, st') => inr (s, st')
         end.
Proof.
  pose proof (bits_range T) as Hb.
  destruct (wf_TokenArray _ _ s_wf) as (arr & Harr & Hlen & _).
  revert i st. induction n as [|n IH]; intros i st Hi Hn.
  - simpl. by rewrite Z.add_0_r.
  - cbn [for_loop_ret].
    destruct (lookup_lt_is_Some_2 arr (Z.to_nat i)) as [w Hw]; [lia|].
    rewrite (ForEachMember_body_visit TE T cb i s _ st arr w Harr)
      by (by rewrite index_lookup by lia).
    cbv zeta. rewrite (word_elements_shown i arr w) by (done || lia).
    replace (Z.of_nat (S n) * bits T) with (bits T + Z.of_nat n * bits T) by lia.
    rewrite seqZ_app, filter_app, visit_app by nia.
    destruct (visit cb (filter (shown T s) (seqZ (i * bits T) (bits T))) st) as [[] st1];
      [|done].
    rewrite wrap_int_add_l.
    replace (i * bits T + bits T) with ((i + 1) * bits T) by lia.
    rewrite IH by lia.
    by replace (i + 1 + Z.of_nat n) with (i + Z.of_nat (S n)) by lia.
Qed.

Lemma shown_members ND :
  filter (shown T s) (seqZ 0 (Tokens s * bits T))
  = filter (λ e, e < visible_bound T s) (members ND T s).
Proof.
  pose proof (bits_range T) as Hb.
  destruct (visible_bound_cases T s s_wf) as (Hvis & _).
  pose proof (Tokens_product_bounds T s s_wf) as Hprod.
  pose proof (wf_MaxElements _ _ s_wf) as Hmax.
  replace (Tokens s * bits T)
    with (MaxElements s + (Tokens s * bits T - MaxElements s)) by lia.
  rewrite seqZ_app, filter_app by lia.
  rewrite (filter_none _ (seqZ (0 + MaxElements s) _)).
  2:{ intros e [He _]%elem_of_seqZ [Hlt _]. lia. }
  rewrite app_nil_r. unfold members. rewrite list_filter_filter.
  apply filter_ext_elem. intros e [He1 He2]%elem_of_seqZ. unfold shown.
  rewrite Contains_unfold, asserts_hold_valid; [|done|lia|right; lia]. done.
Qed.

Lemma ForEachMember_shown ND st :
  ForEachMember TE T cb s st
  = Some (s, (visit cb (filter (λ e, e < visible_bound T s) (members ND T s)) st).2).
Proof.
  pose proof (wf_Tokens_range _ _ s_wf) as Ht.
  unfold ForEachMember.
  pose proof (ForEachMember_loop_shown (Z.to_nat (Tokens s)) 0 st) as Hloop.
  rewrite Z.mul_0_l in Hloop. change (wrap_int 0) with 0 in Hloop.
  rewrite Hloop by lia. cbn [mbind option_bind].
  rewrite Z2Nat.id by lia. rewrite (shown_members ND).
  by destruct (visit cb (filter (λ e, e < visible_bound T s) (members ND T s)) st)
    as [[] st'].
Qed.

End ForEachMember_shown.

(** Enumeration at every universe size (that fits [int] and [TElement]):
    whatever the visitor, [ForEachMember] shows it, in ascending order and up
    to the first one it stops at, the members below
    [(Tokens - 1) * bits + MaxElements mod bits] and no other element.  That
    bound is the universe size when it is not a multiple of the word width;
    when it is, the members of the last word are never shown. *)
Theorem ForEachMember_visits ND TE T s :
  wf T s →
  LastTokenMask s = Z.ones (MaxElements s mod bits T) →
  MaxElements s ≤ 2 ^ 31 →
  MaxElements s ≤ 2 ^ bits TE →
  (∀ (St : Type) (cb : Z → St → bool * St) (st : St),
     ForEachMember TE T cb s st
     = Some (s, (visit cb (filter (λ e, e < visible_bound T s) (members ND T s)) st).2)) ∧
  (MaxElements s mod bits T ≠ 0 → visible_bound T s = MaxElements s) ∧
  (MaxElements s mod bits T = 0 → visible_bound T s = MaxElements s - bits T).
Proof.
  intros Hwf Hmask Hint HTE.
  split; [intros St cb st; by apply ForEachMember_shown|].
  destruct (visible_bound_cases T s Hwf) as (_ & _ & _ & H1 & H2). done.
Qed.

(** Enumeration of a complement, in a universe that is not a multiple of the
    word width: after [Complement()], [ForEachMember] shows the visitor
    exactly the valid elements that were not members, in ascending order;
    the bits [Complement] sets beyond the universe size are masked. *)
Theorem ForEachMember_after_Complement ND TE T s s' :
  wf T s →
  LastTokenMask s = Z.ones (MaxElements s mod bits T) →
  MaxElements s mod bits T ≠ 0 →
  MaxElements s ≤ 2 ^ 31 →
  MaxElements s ≤ 2 ^ bits TE →
  Complement T s = Some s' →
  ∀ (St : Type) (cb : Z → St → bool * St) (st : St),
    ForEachMember TE T cb s' st
    = Some (s', (visit cb (filter (λ e, Contains ND T s e = Some false)
                             (seqZ 0 (MaxElements s))) st).2).
Proof.
  intros Hwf Hmask Htail Hint HTE Hc St cb st.
  pose proof (Complement_wf T s s' Hwf Hc) as Hwf'.
  destruct (Complement_Some T s Hwf) as (arr & arr' & _ & Hc' & _).
  assert (s' = with_TokenArray s (Some arr')) as Hs' by congruence.
  assert (MaxElements s' = MaxElements s ∧ LastTokenMask s' = LastTokenMask s
          ∧ Tokens s' = Tokens s) as (Hm & Hl & Ht) by (by subst s').
  rewrite (ForEachMember_members TE T cb s' Hwf') with (ND := ND)
    by (rewrite ?Hm, ?Hl; done).
  do 4 f_equal. unfold members. rewrite Hm.
  apply filter_ext_elem. intros e [He1 He2]%elem_of_seqZ.
  pose proof (Tokens_product_bounds T s Hwf) as Hprod. pose proof (bits_range T) as Hb.
  rewrite !Contains_unfold, (asserts_hold_eq ND T s' s) by done.
  rewrite asserts_hold_valid; [|done|lia|right; lia].
  rewrite (read_bit_Complement T s s' e Hwf Hc) by lia.
  destruct (read_bit T s e) as [[]|]; simpl; split; congruence.
Qed.

(** ** Compositions of the operations *)

Lemma read_bit_Complement_valid T s s' e :
  wf T s → 0 ≤ e < MaxElements s → Complement T s = Some s' →
  read_bit T s' e = negb <$> read_bit T s e.
Proof.
  intros Hwf He H. pose proof (Tokens_product_bounds T s Hwf).
  apply read_bit_Complement; [done|done|lia].
Qed.

Lemma read_bit_valid T s e : wf T s → 0 ≤ e < MaxElements s → is_Some (read_bit T s e).
Proof.
  intros Hwf He. destruct (wf_TokenArray _ _ Hwf) as (arr & Harr & _).
  apply (read_bit_is_Some T s e arr Harr). by eapply valid_token_lt.
Qed.

Lemma write_bit_wf T f s e s' :
  (∀ w pos, is_word T (f w pos)) → wf T s → write_bit T f s e = Some s' → wf T s'.
Proof.
  intros Hf Hs (arr & w & arr' & Harr & Hw & [Hi ->]%store_Some & ->)%write_bit_Some.
  destruct Hs as [Hmax Hwc (arr0 & Harr0 & Hlen & Hwords)].
  assert (arr0 = arr) as -> by congruence.
  split; [done|done|]. eexists. split; [done|]. split.
  - simpl. rewrite length_insert. lia.
  - apply Forall_insert; [done|apply Hf].
Qed.

(** De Morgan's laws, on universe-compatible live objects and a valid
    element [e]: complementing a union gives at [e] what intersecting the
    complements gives, and complementing an intersection what uniting the
    complements gives.  All the calls return, and [Contains(e)] under the
    condition stated for [Add]. *)
Theorem Complement_De_Morgan ND T a b e :
  wf T a → wf T b → compatible b a → 0 ≤ e < MaxElements a →
  agree ND T a
    (u ← UnionWith ND a b; u' ← Complement T u; Contains ND T u' e)
    (a' ← Complement T a; b' ← Complement T b;
     i ← IntersectWith ND a' b'; Contains ND T i e)
  ∧ agree ND T a
    (i ← IntersectWith ND a b; i' ← Complement T i; Contains ND T i' e)
    (a' ← Complement T a; b' ← Complement T b;
     u ← UnionWith ND a' b'; Contains ND T u e).
Proof.
  intros Hwa Hwb (Htok & Hmax & Hmask) He.
  assert (0 ≤ e < MaxElements b) as Heb by lia.
  destruct (Complement_Some T a Hwa) as (? & arr_a' & _ & Hca & _).
  destruct (Complement_Some T b Hwb) as (? & arr_b' & _ & Hcb & _).
  pose proof (Complement_wf _ _ _ Hwa Hca) as Hwa'.
  pose proof (Complement_wf _ _ _ Hwb Hcb) as Hwb'.
  pose proof (read_bit_Complement_valid _ _ _ e Hwa He Hca) as Hra'.
  pose proof (read_bit_Complement_valid _ _ _ e Hwb Heb Hcb) as Hrb'.
  destruct (read_bit_valid T a e Hwa He) as [bx Hx].
  destruct (read_bit_valid T b e Hwb Heb) as [by' Hy].
  rewrite Hx in Hra'. rewrite Hy in Hrb'. simpl in Hra', Hrb'.
  rewrite Hca, Hcb. cbn [mbind option_bind].
  assert (∀ f fb g gb, bitwise f fb → fb false false = false →
            bitwise g gb → gb false false = false →
            (∀ p q, negb (fb p q) = gb (negb p) (negb q)) →
            agree ND T a
              (u ← combine_with ND f a b; u' ← Complement T u; Contains ND T u' e)
              (i ← combine_with ND g (with_TokenArray a (Some arr_a'))
                     (with_TokenArray b (Some arr_b'));
               Contains ND T i e)) as Hlaw.
  { intros f fb g gb Hf Hff Hg Hgg Hdual.
    destruct (combine_with_Some ND T f fb Hf Hff a b)
      as (u & -> & Hwu & Htu & Hmu & _ & Hru); [done|done|done|].
    destruct (combine_with_Some ND T g gb Hg Hgg _ _ Hwa' Hwb')
      as (i & -> & Hwi & Hti & Hmi & _ & Hri); [done|].
    cbn [mbind option_bind].
    assert (0 ≤ e < MaxElements u) as Heu by lia.
    destruct (Complement_Some T u Hwu) as (? & arr_u' & _ & Hcu & _).
    pose proof (Complement_wf _ _ _ Hwu Hcu) as Hwu'.
    pose proof (read_bit_Complement_valid _ _ _ e Hwu Heu Hcu) as Hru'.
    rewrite Hcu. cbn [mbind option_bind].
    rewrite !Contains_unfold, asserts_hold_with_TokenArray.
    rewrite (asserts_hold_eq ND T u a), (asserts_hold_eq ND T i a) by done.
    rewrite Hru', Hru, Hri, Hra', Hrb', Hx, Hy by done. simpl. rewrite Hdual.
    split.
    - by destruct (asserts_hold ND T a e).
    - intros Hex. rewrite asserts_hold_valid by done. eauto. }
  split.
  - apply (Hlaw Z.lor orb Z.land andb bitwise_lor eq_refl bitwise_land eq_refl).
    intros p q. apply negb_orb.
  - apply (Hlaw Z.land andb Z.lor orb bitwise_land eq_refl bitwise_lor eq_refl).
    intros p q. apply negb_andb.
Qed.

(** Two calls of [Complement()] in a row give back the object itself, the
    bits beyond the universe size included; the object in between has the
    same attributes and, unless the universe is empty, another content. *)
Theorem Complement_round_trip T s :
  wf T s →
  ∃ s1, Complement T s = Some s1 ∧ Complement T s1 = Some s
        ∧ attributes s1 = attributes s ∧ (0 < MaxElements s → s1 ≠ s).
Proof.
  intros Hwf. destruct (Complement_Some T s Hwf) as (arr & arr1 & Harr & Hc1 & Hlen1 & Hlk1).
  pose proof (Complement_Complement T s Hwf) as Htwice. rewrite Hc1 in Htwice.
  eexists. split; [exact Hc1|]. split; [exact Htwice|]. split; [done|].
  intros Hpos Heq.
  pose proof (read_bit_Complement_valid T s _ 0 Hwf ltac:(lia) Hc1) as Hflip.
  rewrite Heq in Hflip. destruct (read_bit_valid T s 0 Hwf ltac:(lia)) as [x Hx].
  rewrite Hx in Hflip. by destruct x.
Qed.

(** After [Add(e)] of a valid element the set is not empty. *)
Theorem IsEmpty_after_Add ND T s e :
  wf T s → 0 ≤ e < MaxElements s →
  (assert_exact ND T s → is_Some (Add ND T s e)) ∧
  ∀ s1, Add ND T s e = Some s1 → IsEmpty s1 = Some false.
Proof.
  intros Hwf He. split; [by apply Add_is_Some|].
  intros s1. rewrite Add_unfold.
  destruct (asserts_hold ND T s e); [|done]. intros Hadd.
  pose proof (bits_range T) as Hb.
  assert (0 ≤ e mod bits T < bits T) as Hoff by (apply Z.mod_pos_bound; lia).
  assert (wf T s1) as Hwf1.
  { eapply write_bit_wf; [|done..]. intros w pos. apply wrap_t_is_word. }
  pose proof (read_write_bit _ _ _ _ _ e (proj1 He) Hadd) as Hread.
  destruct (write_bit_Some _ _ _ _ _ Hadd) as (arr & w & arr' & Harr & Hw & Hst & Hs1).
  rewrite Harr in Hread. simpl in Hread. rewrite Hw in Hread. simpl in Hread.
  rewrite bool_decide_eq_true_2 in Hread by done.
  rewrite TestBit_SetBit, bool_decide_eq_true_2 in Hread by done.
  destruct (IsEmpty_storage T s1 Hwf1) as [[[] Hemp] Hiff]; [|done].
  pose proof (Tokens_product_bounds T s1 Hwf1) as Hbound.
  assert (MaxElements s1 = MaxElements s) as Hm by by subst s1.
  rewrite (proj1 Hiff Hemp e) in Hread by lia. done.
Qed.

(** No member function but the assignment operator changes the universe
    size, the word count or the mask; the assignment operator takes those
    of its source when the word counts differ, and keeps its own otherwise. *)
Theorem attributes_fixed ND TE T indet m s s' :
  call ND TE T indet m s = Some s' →
  let src := match m with
             | m_assign rh => if Tokens rh =? Tokens s then s else rh
             | _ => s
             end in
  attributes s' = attributes src ∧ GetMaxElements s' = GetMaxElements src.
Proof.
  intros H src.
  assert (attributes s' = attributes src) as Hattr.
  { destruct (call_attributes _ _ _ _ _ _ _ H) as [Hs|(rh & -> & Hrh)].
    - destruct m; try done. subst src. apply assign_attributes in H.
      by destruct (Tokens rh =? Tokens s).
    - subst src. apply assign_attributes in H. by destruct (Tokens rh =? Tokens s). }
  split; [done|]. unfold attributes in Hattr. unfold GetMaxElements. congruence.
Qed.

(** ** The scenarios of the specification *)

Lemma scenario_70_wf : wf uint32_t scenario_70.
Proof.
  split; [done|done|]. eexists. split; [done|]. split; [done|].
  repeat (constructor; [done|]). constructor.
Qed.

Lemma scenario_10_wf w : 0 ≤ w < 2 ^ 32 → wf uint32_t (scenario_10 w).
Proof.
  intros Hw. split; [done|done|]. eexists. split; [done|]. split; [done|].
  constructor; [done|]. repeat (constructor; [done|]). constructor.
Qed.

(** Universe size 70, elements 0, 31, 32 and 69 added: the constructor and
    [Add] build [scenario_70]; [Contains(69)] is true and [Contains(68)]
    false; [ForEachMember] yields exactly 0, 31, 32, 69 in that order;
    [IsEmpty()] is false; after [Clear()], [IsEmpty()] is true and
    [ForEachMember] yields nothing. *)
Lemma scenario_70_behaviour :
  (BitSet_new uint32_t (λ _, 0) 70 ≫= λ s, Add false uint32_t s 0
     ≫= λ s, Add false uint32_t s 31 ≫= λ s, Add false uint32_t s 32
     ≫= λ s, Add false uint32_t s 69) = Some scenario_70
  ∧ Contains false uint32_t scenario_70 69 = Some true
  ∧ Contains false uint32_t scenario_70 68 = Some false
  ∧ ForEachMember uint32_t uint32_t (recorder false) scenario_70 []
    = Some (scenario_70, [0; 31; 32; 69])
  ∧ IsEmpty scenario_70 = Some false
  ∧ (Clear scenario_70 ≫= IsEmpty) = Some true
  ∧ (Clear scenario_70 ≫= λ s, snd <$> ForEachMember uint32_t uint32_t (recorder false) s [])
    = Some [].
Proof. repeat split; by vm_compute. Qed.

(** Universe size 10, [A = {1, 2, 3}] and [B = {3, 4, 5}]: [A.IntersectWith(B)]
    leaves [{3}] and [A.UnionWith(B)] leaves [{1, 2, 3, 4, 5}]. *)
Lemma scenario_10_behaviour :
  members false uint32_t (scenario_10 14) = [1; 2; 3]
  ∧ members false uint32_t (scenario_10 56) = [3; 4; 5]
  ∧ members false uint32_t <$> IntersectWith false (scenario_10 14) (scenario_10 56)
    = Some [3]
  ∧ members false uint32_t <$> UnionWith false (scenario_10 14) (scenario_10 56)
    = Some [1; 2; 3; 4; 5].
Proof. repeat split; by vm_compute. Qed.

(** One [Complement()] sets the bits of the last word beyond the universe,
    a second one clears them again: on the empty set of universe size 70 the
    last word reads [0xFFFFFFFF] after one call and 0 after two. *)
Lemma Complement_sets_tail_bits :
  (BitSet_new uint32_t (λ _, 0) 70 ≫= λ s, Complement uint32_t s
     ≫= λ s, Complement uint32_t s ≫= λ s, TokenArray s ≫= λ arr, arr !! 2%nat) = Some 0
  ∧ (BitSet_new uint32_t (λ _, 0) 70 ≫= λ s, Complement uint32_t s
     ≫= λ s, TokenArray s ≫= λ arr, arr !! 2%nat) = Some 4294967295.
Proof. split; by vm_compute. Qed.

(** ** Instances of the theorems *)

Lemma Add_then_Remove_Contains_witness :
  (assert_exact false uint32_t scenario_70 → is_Some (Add false uint32_t scenario_70 68)) ∧
  ∀ s1, Add false uint32_t scenario_70 68 = Some s1 →
    Contains false uint32_t s1 68 = Some true ∧
    ∃ s2, Remove false uint32_t s1 68 = Some s2 ∧ Contains false uint32_t s2 68 = Some false.
Proof.
  apply (Add_then_Remove_Contains false uint32_t scenario_70 68);
    [apply scenario_70_wf|simpl; lia].
Defined.

Lemma Add_Remove_frame_witness :
  (∀ s', Add false uint32_t scenario_70 68 = Some s' →
     agree false uint32_t scenario_70
       (Contains false uint32_t s' 69) (Contains false uint32_t scenario_70 69)) ∧
  (∀ s', Remove false uint32_t scenario_70 69 = Some s' →
     agree false uint32_t scenario_70
       (Contains false uint32_t s' 0) (Contains false uint32_t scenario_70 0)).
Proof.
  split.
  - apply (Add_Remove_frame false uint32_t scenario_70 68 69);
      [apply scenario_70_wf|simpl; lia|simpl; lia|lia].
  - apply (Add_Remove_frame false uint32_t scenario_70 69 0);
      [apply scenario_70_wf|simpl; lia|simpl; lia|lia].
Defined.

Lemma IsEmpty_after_new_and_Clear_witness :
  (BitSet_new uint32_t (λ _, 0) 70 ≫= IsEmpty) = Some true ∧
  ∀ s, wf uint32_t s → MaxElements s = 70 → (Clear s ≫= IsEmpty) = Some true.
Proof. apply (IsEmpty_after_new_and_Clear uint32_t (λ _, 0) 70). lia. Defined.

Lemma ForEachMember_unchanged_witness :
  ∃ seen, ForEachMember uint32_t uint32_t (recorder true) scenario_70 []
          = Some (scenario_70, seen).
Proof.
  apply (ForEachMember_unchanged uint32_t uint32_t (recorder true) scenario_70 []).
  apply scenario_70_wf.
Defined.

Lemma Complement_twice_Contains_witness :
  ∃ s1 s2,
    Complement uint32_t scenario_70 = Some s1 ∧ Complement uint32_t s1 = Some s2
    ∧ agree false uint32_t scenario_70
        (Contains false uint32_t s2 69) (Contains false uint32_t scenario_70 69).
Proof.
  apply (Complement_twice_Contains false uint32_t scenario_70 69);
    [apply scenario_70_wf|simpl; lia].
Defined.

Lemma UnionWith_IntersectWith_algebra_witness :
  agree false uint32_t (scenario_10 14)
    (UnionWith false (scenario_10 14) (scenario_10 56) ≫= λ s, Contains false uint32_t s 3)
    (UnionWith false (scenario_10 56) (scenario_10 14) ≫= λ s, Contains false uint32_t s 3)
  ∧ IntersectWith false (scenario_10 14) (scenario_10 14) = Some (scenario_10 14).
Proof.
  pose proof (UnionWith_IntersectWith_algebra false uint32_t
    (scenario_10 14) (scenario_10 56) (scenario_10 544) 3
    (scenario_10_wf 14 ltac:(lia)) (scenario_10_wf 56 ltac:(lia))
    (scenario_10_wf 544 ltac:(lia))
    ltac:(done) ltac:(done) ltac:(simpl; lia)) as H.
  split; [apply H|apply H].
Defined.

Lemma ForEachMember_visits_members_witness :
  ForEachMember uint32_t uint32_t (recorder false) scenario_70 []
  = Some (scenario_70, members false uint32_t scenario_70)
  ∧ ForEachMember uint32_t uint32_t (recorder true) scenario_70 []
    = Some (scenario_70, take 1 (members false uint32_t scenario_70)).
Proof.
  pose proof (ForEachMember_visits_members false uint32_t uint32_t scenario_70
    scenario_70_wf ltac:(done) ltac:(done) ltac:(by vm_compute) ltac:(by vm_compute)) as H.
  split; apply H.
Defined.

Lemma BitSet_new_LastTokenMask_witness :
  LastTokenMask <$> BitSet_new uint32_t (λ _, 0) 70 = Some 63.
Proof. apply (BitSet_new_LastTokenMask uint32_t (λ _, 0) 70). lia. Defined.

Lemma assign_duplicates_witness :
  ∃ s', assign false uint32_t (λ _, 0) scenario_70 (scenario_10 14) = Some s'
        ∧ attributes s' = attributes (scenario_10 14)
        ∧ ∀ e, 0 ≤ e < MaxElements (scenario_10 14) →
            Contains false uint32_t s' e = Contains false uint32_t (scenario_10 14) e.
Proof.
  apply (assign_duplicates false uint32_t (λ _, 0) scenario_70 (scenario_10 14));
    [apply scenario_70_wf|apply scenario_10_wf; lia|left; done].
Defined.

Lemma Contains_Complement_witness :
  ∃ s', Complement uint32_t scenario_70 = Some s'
        ∧ Contains false uint32_t s' 68
          = negb <$> Contains false uint32_t scenario_70 68.
Proof.
  destruct (Complement_Some uint32_t scenario_70 scenario_70_wf) as (arr & arr' & _ & Hc & _).
  eexists. split; [exact Hc|].
  apply (Contains_Complement false uint32_t scenario_70 _ 68);
    [apply scenario_70_wf|simpl; lia|exact Hc].
Defined.

Lemma two_full_words_wf indet : wf uint32_t (two_full_words indet).
Proof.
  split; [done|done|]. eexists. split; [done|]. split.
  - simpl. lia.
  - apply Forall_app. split; [by repeat constructor|apply Forall_drop, fresh_block_words].
Qed.

Lemma scenario_10_read_bit w e :
  0 ≤ e < 32 → read_bit uint32_t (scenario_10 w) e = Some (Z.testbit w e).
Proof.
  intros He. unfold read_bit. change (ElementsPerToken uint32_t) with 32.
  by rewrite Z.div_small, Z.mod_small by lia.
Qed.

Lemma scenario_10_tail_clear w : 0 ≤ w < 2 ^ 10 → tail_clear uint32_t (scenario_10 w).
Proof.
  intros Hw e He. change (10 ≤ e < 1 * 32) in He.
  rewrite scenario_10_read_bit by lia. f_equal.
  destruct (decide (w = 0)) as [->|]; [apply Z.bits_0|].
  apply Z.bits_above_log2; [lia|]. apply Z.log2_lt_pow2; [lia|].
  pose proof (Z.pow_le_mono_r 2 10 e). lia.
Qed.

Lemma checked_calls_return_iff_witness :
  is_Some (Contains false uint32_t scenario_70 69)
    ↔ 0 ≤ 69 < MaxElements scenario_70 ∧ MaxElements scenario_70 ≤ 2 ^ 32 - bits uint32_t.
Proof. apply (checked_calls_return_iff uint32_t scenario_70 69). apply scenario_70_wf. Defined.

Lemma Add_Remove_round_trip_witness :
  Remove false uint32_t scenario_70 68 = Some scenario_70
  ∧ ∃ s1, Add false uint32_t scenario_70 68 = Some s1
          ∧ Remove false uint32_t s1 68 = Some scenario_70.
Proof.
  apply (proj1 (Add_Remove_round_trip false uint32_t scenario_70 68 scenario_70_wf)).
  reflexivity.
Defined.


Lemma IsEmpty_after_Complement_witness :
  (Complement uint32_t (scenario_10 1023) ≫= IsEmpty) = Some false.
Proof.
  apply (IsEmpty_after_Complement uint32_t (scenario_10 1023));
    [apply scenario_10_wf; lia|apply scenario_10_tail_clear; lia|by vm_compute].
Defined.

Lemma no_members_after_new_and_Clear_witness :
  (∀ e, 0 ≤ e < MaxElements cleared_70 → assert_exact false uint32_t cleared_70 →
        Contains false uint32_t cleared_70 e = Some false) ∧
  (∀ (St : Type) (cb : Z → St → bool * St) (st : St),
     ForEachMember uint32_t uint32_t cb cleared_70 st = Some (cleared_70, st)).
Proof.
  apply (no_members_after_new_and_Clear false uint32_t uint32_t (λ _, 0) cleared_70).
  right. exists scenario_70. split; [apply scenario_70_wf|reflexivity].
Defined.

Lemma Contains_UnionWith_IntersectWith_witness :
  ∃ u i,
    UnionWith false (scenario_10 14) (scenario_10 56) = Some u
    ∧ IntersectWith false (scenario_10 14) (scenario_10 56) = Some i
    ∧ attributes u = attributes (scenario_10 14)
    ∧ attributes i = attributes (scenario_10 14)
    ∧ Contains false uint32_t u 4
      = (x ← Contains false uint32_t (scenario_10 14) 4;
         y ← Contains false uint32_t (scenario_10 56) 4; Some (x || y))
    ∧ Contains false uint32_t i 4
      = (x ← Contains false uint32_t (scenario_10 14) 4;
         y ← Contains false uint32_t (scenario_10 56) 4; Some (x && y)).
Proof.
  apply (Contains_UnionWith_IntersectWith false uint32_t (scenario_10 14) (scenario_10 56) 4);
    [apply scenario_10_wf; lia|apply scenario_10_wf; lia|done|simpl; lia].
Defined.

Lemma BitSet_copy_duplicates_witness :
  ∃ s,
    BitSet_copy false uint32_t (λ _, 0) scenario_70 = Some s
    ∧ wf uint32_t s ∧ attributes s = attributes scenario_70
    ∧ (∀ e, 0 ≤ e < MaxElements scenario_70 →
            Contains false uint32_t s e = Contains false uint32_t scenario_70 e)
    ∧ IsEmpty s = IsEmpty scenario_70.
Proof.
  apply (BitSet_copy_duplicates false uint32_t (λ _, 0) scenario_70). apply scenario_70_wf.
Defined.

Lemma checked_operands_witness :
  (is_Some (CopyFrom false scenario_70 (scenario_10 14))
     ↔ compatible (scenario_10 14) scenario_70) ∧
  (is_Some (assign false uint32_t (λ _, 0) scenario_70 (scenario_10 14))
     ↔ Tokens (scenario_10 14) ≠ Tokens scenario_70 ∨ compatible (scenario_10 14) scenario_70) ∧
  (is_Some (UnionWith false scenario_70 (scenario_10 14))
     ↔ Tokens (scenario_10 14) = Tokens scenario_70) ∧
  (is_Some (IntersectWith false scenario_70 (scenario_10 14))
     ↔ Tokens (scenario_10 14) = Tokens scenario_70).
Proof.
  apply (checked_operands uint32_t (λ _, 0) scenario_70 (scenario_10 14));
    [apply scenario_70_wf|apply scenario_10_wf; lia].
Defined.

Lemma ForEachMember_visits_witness :
  ForEachMember uint32_t uint32_t (recorder false) (two_full_words (λ _, 0)) []
  = Some (two_full_words (λ _, 0),
          (visit (recorder false)
             (filter (λ e, e < visible_bound uint32_t (two_full_words (λ _, 0)))
                (members false uint32_t (two_full_words (λ _, 0)))) []).2)
  ∧ visible_bound uint32_t (two_full_words (λ _, 0)) = 32.
Proof.
  pose proof (ForEachMember_visits false uint32_t uint32_t (two_full_words (λ _, 0))
    (two_full_words_wf _) ltac:(done) ltac:(by vm_compute) ltac:(by vm_compute)) as H.
  split; [apply H|apply H; done].
Defined.

Lemma ForEachMember_after_Complement_witness :
  ∃ s', Complement uint32_t scenario_70 = Some s'
        ∧ ∀ (St : Type) (cb : Z → St → bool * St) (st : St),
            ForEachMember uint32_t uint32_t cb s' st
            = Some (s', (visit cb (filter (λ e, Contains false uint32_t scenario_70 e = Some false)
                                     (seqZ 0 (MaxElements scenario_70))) st).2).
Proof.
  destruct (Complement_Some uint32_t scenario_70 scenario_70_wf) as (arr & arr' & _ & Hc & _).
  eexists. split; [exact Hc|].
  apply (ForEachMember_after_Complement false uint32_t uint32_t scenario_70 _ scenario_70_wf);
    [done|done|by vm_compute|by vm_compute|exact Hc].
Defined.

Lemma Add_Remove_idempotent_witness :
  ∃ s1, Add false uint32_t scenario_70 68 = Some s1 ∧ Add false uint32_t s1 68 = Some s1.
Proof.
  eexists. split; [reflexivity|].
  apply (proj1 (Add_Remove_idempotent false uint32_t scenario_70 68 _)). reflexivity.
Defined.

Lemma tail_clear_kept_witness : tail_clear uint32_t cleared_70.
Proof.
  apply (proj1 (proj2 (tail_clear_kept false uint32_t (λ _, 0))) scenario_70 cleared_70);
    [apply scenario_70_wf|reflexivity].
Defined.

Lemma live_maintained_witness :
  ∃ s, BitSet_new uint32_t (λ _, 0) 70 = Some s ∧ live uint32_t s.
Proof. apply (proj1 (live_maintained false uint32_t uint32_t (λ _, 0)) 70). lia. Defined.

Lemma cleared_70_wf : wf uint32_t cleared_70.
Proof.
  split; [done|done|]. eexists. split; [done|]. split; [done|].
  apply Forall_replicate. done.
Qed.

Lemma Complement_De_Morgan_witness :
  agree false uint32_t (scenario_10 14)
    (u ← UnionWith false (scenario_10 14) (scenario_10 56);
     u' ← Complement uint32_t u; Contains false uint32_t u' 4)
    (a' ← Complement uint32_t (scenario_10 14); b' ← Complement uint32_t (scenario_10 56);
     i ← IntersectWith false a' b'; Contains false uint32_t i 4).
Proof.
  apply (Complement_De_Morgan false uint32_t (scenario_10 14) (scenario_10 56) 4);
    [apply scenario_10_wf; lia|apply scenario_10_wf; lia|done|simpl; lia].
Defined.

Lemma Complement_round_trip_witness :
  ∃ s1, Complement uint32_t scenario_70 = Some s1 ∧ Complement uint32_t s1 = Some scenario_70
        ∧ attributes s1 = attributes scenario_70
        ∧ (0 < MaxElements scenario_70 → s1 ≠ scenario_70).
Proof. apply (Complement_round_trip uint32_t scenario_70). apply scenario_70_wf. Defined.

Lemma IsEmpty_after_Add_witness :
  ∃ s1, Add false uint32_t cleared_70 5 = Some s1 ∧ IsEmpty s1 = Some false.
Proof.
  eexists. split; [reflexivity|].
  apply (proj2 (IsEmpty_after_Add false uint32_t cleared_70 5 cleared_70_wf
                  ltac:(simpl; lia))).
  reflexivity.
Defined.

Lemma attributes_fixed_witness :
  ∃ s', call false uint32_t uint32_t (λ _, 0) (m_assign (scenario_10 14)) scenario_70 = Some s'
        ∧ GetMaxElements s' = 10.
Proof.
  eexists. split; [reflexivity|].
  apply (attributes_fixed false uint32_t uint32_t (λ _, 0) (m_assign (scenario_10 14))
           scenario_70 _ eq_refl).
Defined.
